(** * The generation session of [src/App.tsx]

    A shallow embedding of the stateful logic of the [App] component: the six
    [useState] cells, the handlers [handleGenerate], [deleteImage] and
    [downloadImage], the inline handlers of the markup, and the transition
    system the rendered triggers induce.

    Conventions.
    - A JavaScript string is the list of its UTF-16 code units.
    - A handler that runs to completion inside one event is a function on
      the state cells.  [handleGenerate] suspends at its [await]: it is cut
      there into [handleGenerate] (up to the request) and
      [handleGenerate_resume] (from the settled promise on).  The resumed
      half reads [prompt] and [aspectRatio] from the closure of the render
      that was clicked, and writes through the setters to the live state.
    - [deleteImage] likewise reads [selectedImage] from the render that
      built it; what that render captured is an explicit argument.
    - [Math.random] and [Date.now] are inputs of the resumed half. *)

From Stdlib Require Import ZArith NArith String Ascii.
From stdpp Require Import base option list.

Local Open Scope N_scope.

(** ** JavaScript strings *)

Abbreviation jsstring := (list N).

(** A literal of the source: every literal of [App.tsx] modelled here is ASCII. *)
Definition js (s : string) : jsstring :=
  (fix go (s : string) : list N :=
     match s with
     | EmptyString => []
     | String a s' => N_of_ascii a :: go s'
     end) s.

(** [ToBoolean] on a string: only the empty string is falsy. *)
Definition truthy (s : jsstring) : bool :=
  match s with
  | [] => false
  | _ :: _ => true
  end.

(** ECMAScript's WhiteSpace and LineTerminator code points, which are what
    [String.prototype.trim] strips (all of them lie in the BMP). *)
Definition is_white_space (c : N) : bool :=
  (c =? 9) || (c =? 10) || (c =? 11) || (c =? 12) || (c =? 13)
  || (c =? 32) || (c =? 160) || (c =? 5760)
  || ((8192 <=? c) && (c <=? 8202))
  || (c =? 8232) || (c =? 8233) || (c =? 8239) || (c =? 8287)
  || (c =? 12288) || (c =? 65279).

Fixpoint trimStart (s : jsstring) : jsstring :=
  match s with
  | [] => []
  | c :: s' => if is_white_space c then trimStart s' else s
  end.

Definition trimEnd (s : jsstring) : jsstring :=
  reverse (trimStart (reverse s)).

Definition trim (s : jsstring) : jsstring := trimEnd (trimStart s).

(** [a || b] on strings that may be [undefined]. *)
Definition or_else (a : option jsstring) (b : jsstring) : jsstring :=
  match a with
  | Some m => if truthy m then m else b
  | None => b
  end.

(** A template-literal hole filled with a value that may be [undefined]. *)
Definition interpolate (a : option jsstring) : jsstring :=
  match a with
  | Some d => d
  | None => js "undefined"
  end.

(** ** Types and constants *)

Module GeneratedImage.
Record t : Type := mk {
  id : jsstring;
  url : jsstring;
  prompt : jsstring;
  timestamp : Z;
  aspectRatio : jsstring
}.
End GeneratedImage.
Abbreviation GeneratedImage := GeneratedImage.t.

Record AspectRatioOption : Type := {
  label : jsstring;
  value : jsstring;
  icon : jsstring
}.

Definition ASPECT_RATIOS : list AspectRatioOption :=
  [ {| label := js "1:1";  value := js "1:1";  icon := js "Square" |};
    {| label := js "16:9"; value := js "16:9"; icon := js "Monitor" |};
    {| label := js "9:16"; value := js "9:16"; icon := js "Smartphone" |};
    {| label := js "4:3";  value := js "4:3";  icon := js "RectangleHorizontal" |};
    {| label := js "3:4";  value := js "3:4";  icon := js "RectangleVertical" |} ].

(** ** The state cells of [App] *)

Record State : Type := mkState {
  prompt : jsstring;
  isGenerating : bool;
  aspectRatio : jsstring;
  history : list GeneratedImage;
  selectedImage : option GeneratedImage;
  error : option jsstring
}.

Definition initialState : State :=
  {| prompt := js "";
     isGenerating := false;
     aspectRatio := js "1:1";
     history := [];
     selectedImage := None;
     error := None |}.

Definition setPrompt (v : jsstring) (s : State) : State :=
  mkState v (isGenerating s) (aspectRatio s) (history s) (selectedImage s) (error s).

Definition setIsGenerating (v : bool) (s : State) : State :=
  mkState (prompt s) v (aspectRatio s) (history s) (selectedImage s) (error s).

Definition setAspectRatio (v : jsstring) (s : State) : State :=
  mkState (prompt s) (isGenerating s) v (history s) (selectedImage s) (error s).

(** [setHistory] is only ever called with an updater function. *)
Definition setHistory (f : list GeneratedImage → list GeneratedImage) (s : State) : State :=
  mkState (prompt s) (isGenerating s) (aspectRatio s) (f (history s)) (selectedImage s) (error s).

Definition setSelectedImage (v : option GeneratedImage) (s : State) : State :=
  mkState (prompt s) (isGenerating s) (aspectRatio s) (history s) v (error s).

Definition setError (v : option jsstring) (s : State) : State :=
  mkState (prompt s) (isGenerating s) (aspectRatio s) (history s) (selectedImage s) v.

(** ** The external capability, as [handleGenerate] reads it

    The response type belongs to the client library; what is modelled is the
    access path of the source, [response.candidates?.[0]?.content?.parts] and
    [part.inlineData.data], every link of which may be absent. *)

Record Blob : Type := { data : option jsstring; mimeType : option jsstring }.
Record Part : Type := { inlineData : option Blob; text : option jsstring }.
Record Content : Type := { parts : option (list Part) }.
Record Candidate : Type := { content : option Content }.
Record GenerateContentResponse : Type := { candidates : option (list Candidate) }.

(** What a rejected promise carries, read through [err.message]. *)
Record Fault : Type := { message : option jsstring }.

Definition Error (msg : string) : Fault := {| message := Some (js msg) |}.

Inductive Settled : Type :=
  | Fulfilled (response : GenerateContentResponse)
  | Rejected (err : Fault).

(** The argument of [generateContent]. *)
Record GenerateContentParameters : Type := {
  model : jsstring;
  contents_text : jsstring;
  config_aspectRatio : jsstring
}.

(** The client built by the mount effect, when the key is truthy. *)
Record GoogleGenAI : Type := { apiKey : jsstring }.

Definition useEffect_init (GEMINI_API_KEY : option jsstring) : option GoogleGenAI :=
  match GEMINI_API_KEY with
  | Some k => if truthy k then Some {| apiKey := k |} else None
  | None => None
  end.

(** ** [handleGenerate] *)

(** The variables of the clicked render that the body still reads after the
    [await]. *)
Record Closure : Type := {
  closure_prompt : jsstring;
  closure_aspectRatio : jsstring
}.

(** How the synchronous half ends: by [return], or suspended on a request. *)
Inductive Started : Type :=
  | Returned (s : State)
  | Awaiting (s : State) (request : GenerateContentParameters) (k : Closure).

Definition state_of (r : Started) : State :=
  match r with
  | Returned s => s
  | Awaiting s _ _ => s
  end.

Definition request_of (r : Started) : option GenerateContentParameters :=
  match r with
  | Returned _ => None
  | Awaiting _ q _ => Some q
  end.

Definition handleGenerate (aiRef : option GoogleGenAI) (s : State) : Started :=
  if negb (truthy (trim (prompt s))) then Returned s
  else match aiRef with
       | None =>
           Returned (setError
             (Some (js "API Key not found. Please check your environment variables.")) s)
       | Some _ =>
           Awaiting (setError None (setIsGenerating true s))
             {| model := js "gemini-2.5-flash-image";
                contents_text := prompt s;
                config_aspectRatio := aspectRatio s |}
             {| closure_prompt := prompt s;
                closure_aspectRatio := aspectRatio s |}
       end.

(** [response.candidates?.[0]?.content?.parts || []] *)
Definition content_parts (response : GenerateContentResponse) : list Part :=
  match candidates response with
  | Some (c :: _) =>
      match content c with
      | Some ct => match parts ct with Some ps => ps | None => [] end
      | None => []
      end
  | _ => []
  end.

(** The [for] loop with its [break]: [imageUrl] starts as [''] and takes the
    first part that has [inlineData]. *)
Fixpoint imageUrl_of (ps : list Part) : jsstring :=
  match ps with
  | [] => js ""
  | part :: ps' =>
      match inlineData part with
      | Some b => js "data:image/png;base64," ++ interpolate (data b)
      | None => imageUrl_of ps'
      end
  end.

Definition newImage_of (k : Closure) (imageUrl random_id : jsstring) (now : Z)
  : GeneratedImage :=
  GeneratedImage.mk random_id imageUrl (closure_prompt k) now (closure_aspectRatio k).

(** The [try] block after the [await]: [inl] is a [throw]. *)
Definition try_block (k : Closure) (response : GenerateContentResponse)
    (random_id : jsstring) (now : Z) (s : State) : Fault + State :=
  let imageUrl := imageUrl_of (content_parts response) in
  if truthy imageUrl then
    let newImage := newImage_of k imageUrl random_id now in
    inr (setPrompt (js "")
          (setSelectedImage (Some newImage)
            (setHistory (λ prev, newImage :: prev) s)))
  else inl (Error "No image data returned from the model.").

Definition catch_block (err : Fault) (s : State) : State :=
  setError
    (Some (or_else (message err) (js "An unexpected error occurred during generation."))) s.

Definition finally_block (s : State) : State := setIsGenerating false s.

(** From the settled promise to the end of the handler.  [random_id] stands
    for [Math.random().toString(36).substring(7)] and [now] for [Date.now()]. *)
Definition handleGenerate_resume (k : Closure) (o : Settled)
    (random_id : jsstring) (now : Z) (s : State) : State :=
  finally_block
    match o with
    | Rejected err => catch_block err s
    | Fulfilled response =>
        match try_block k response random_id now s with
        | inr s' => s'
        | inl err => catch_block err s
        end
    end.

(** ** [deleteImage] and the thumbnail handler *)

(** [deleteImage] is rebuilt by every render and reads [selectedImage] from
    the render that built it: [captured] is that render's [selectedImage].
    The setters act on the live state [s], and [setHistory] is given an
    updater, so the filter runs on the live history. *)
Definition deleteImage (captured : option GeneratedImage) (id : jsstring) (s : State)
  : State :=
  let s1 := setHistory (λ prev, filter (λ img, GeneratedImage.id img ≠ id) prev) s in
  match captured with
  | Some sel => if decide (GeneratedImage.id sel = id) then setSelectedImage None s1 else s1
  | None => s1
  end.

Arguments deleteImage : simpl never.

(** The handler built by the render of [s], called on [s] itself: what it
    captured is the live selection. *)
Abbreviation deleteImage_current id s := (deleteImage (selectedImage s) id s).

(** [onClick={() => setSelectedImage(img)}] on the thumbnail of [img]. *)
Definition selectImage (img : GeneratedImage) (s : State) : State :=
  setSelectedImage (Some img) s.

(** ** [downloadImage] and the page it acts on

    Only what the handler touches is modelled: the children of
    [document.body], anchors with their [href] and [download] attributes, and
    the saves the browser starts when an anchor that carries a [download]
    attribute is clicked. *)

Record Element : Type := {
  node : nat;
  tagName : jsstring;
  href : option jsstring;
  download : option jsstring
}.

Record SavedFile : Type := {
  saved_data : jsstring;
  saved_as : jsstring
}.

Record Document : Type := {
  next_node : nat;
  body : list Element;
  saves : list SavedFile
}.

Definition emptyDocument : Document :=
  {| next_node := 0%nat; body := []; saves := [] |}.

Definition createElement (tag : jsstring) (d : Document) : Element * Document :=
  ({| node := next_node d; tagName := tag; href := None; download := None |},
   {| next_node := S (next_node d); body := body d; saves := saves d |}).

Definition set_href (v : jsstring) (e : Element) : Element :=
  {| node := node e; tagName := tagName e; href := Some v; download := download e |}.

Definition set_download (v : jsstring) (e : Element) : Element :=
  {| node := node e; tagName := tagName e; href := href e; download := Some v |}.

Definition appendChild (e : Element) (d : Document) : Document :=
  {| next_node := next_node d; body := body d ++ [e]; saves := saves d |}.

Definition removeChild (e : Element) (d : Document) : Document :=
  {| next_node := next_node d;
     body := filter (λ c, node c ≠ node e) (body d);
     saves := saves d |}.

(** Activating an anchor: with both attributes present the resource of
    [href] is saved under the name in [download]; navigation is not modelled. *)
Definition click (e : Element) (d : Document) : Document :=
  match href e, download e with
  | Some h, Some n =>
      {| next_node := next_node d;
         body := body d;
         saves := saves d ++ [ {| saved_data := h; saved_as := n |} ] |}
  | _, _ => d
  end.

Record World : Type := {
  session : State;
  document : Document
}.

Definition downloadImage (url filename : jsstring) (w : World) : World :=
  let '(link, d) := createElement (js "a") (document w) in
  let link := set_href url link in
  let link := set_download (filename ++ js ".png") link in
  let d := appendChild link d in
  let d := click link d in
  let d := removeChild link d in
  {| session := session w; document := d |}.

(** ** The component as a transition system

    [pending] holds the closures of the invocations of [handleGenerate] that
    are suspended on their request.  [created] is a ghost log: every image
    ever handed to [setHistory], the latest first; no handler reads it. *)

Record App : Type := {
  aiRef : option GoogleGenAI;
  world : World;
  pending : list Closure;
  created : list GeneratedImage
}.

Definition mount (GEMINI_API_KEY : option jsstring) : App :=
  {| aiRef := useEffect_init GEMINI_API_KEY;
     world := {| session := initialState; document := emptyDocument |};
     pending := [];
     created := [] |}.

Definition now_at (a : App) : State := session (world a).

Definition with_session (s : State) (a : App) : App :=
  {| aiRef := aiRef a;
     world := {| session := s; document := document (world a) |};
     pending := pending a;
     created := created a |}.

Inductive Event : Type :=
  | EvSetPrompt (text : jsstring)
  | EvSetAspectRatio (i : nat)
  | EvGenerate
  | EvSettle (n : nat) (o : Settled) (random_id : jsstring) (now : Z)
  | EvSelect (i : nat)
  | EvDelete (id : jsstring)
  | EvDownload (url filename : jsstring)
  | EvDeleteOutgoing (sel : GeneratedImage).

(** The image a settled request adds to the log, if its [try] block gets
    through. *)
Definition logged (k : Closure) (o : Settled) (random_id : jsstring) (now : Z)
    (s : State) : list GeneratedImage :=
  match o with
  | Fulfilled response =>
      match try_block k response random_id now s with
      | inr _ => [newImage_of k (imageUrl_of (content_parts response)) random_id now]
      | inl _ => []
      end
  | Rejected _ => []
  end.

(** One event; [None] when the event has nothing to act on (no such aspect
    ratio button, thumbnail or suspended invocation).  [EvDelete id] is
    [deleteImage(id)] called from the render on the page.
    [EvDeleteOutgoing sel] is the delete button of an overlay on its way out:
    [AnimatePresence mode="wait"] keeps the overlay of an image that was
    selected, with the handlers of its last render, until its exit animation
    ends, so its click runs [deleteImage(sel.id)] with [sel] as the captured
    selection, whatever is selected by then. *)
Definition step (a : App) (e : Event) : option App :=
  match e with
  | EvSetPrompt text => Some (with_session (setPrompt text (now_at a)) a)
  | EvSetAspectRatio i =>
      ratio ← ASPECT_RATIOS !! i;
      Some (with_session (setAspectRatio (value ratio) (now_at a)) a)
  | EvGenerate =>
      match handleGenerate (aiRef a) (now_at a) with
      | Returned s => Some (with_session s a)
      | Awaiting s _ k =>
          Some {| aiRef := aiRef a;
                  world := {| session := s; document := document (world a) |};
                  pending := pending a ++ [k];
                  created := created a |}
      end
  | EvSettle n o random_id now =>
      k ← pending a !! n;
      Some {| aiRef := aiRef a;
              world := {| session := handleGenerate_resume k o random_id now (now_at a);
                          document := document (world a) |};
              pending := delete n (pending a);
              created := logged k o random_id now (now_at a) ++ created a |}
  | EvSelect i =>
      img ← history (now_at a) !! i;
      Some (with_session (selectImage img (now_at a)) a)
  | EvDelete id => Some (with_session (deleteImage_current id (now_at a)) a)
  | EvDownload url filename =>
      Some {| aiRef := aiRef a;
              world := downloadImage url filename (world a);
              pending := pending a;
              created := created a |}
  | EvDeleteOutgoing sel =>
      Some (with_session (deleteImage (Some sel) (GeneratedImage.id sel) (now_at a)) a)
  end.


(** Which events may fire in which state. *)
Definition policy : Type := App → Event → bool.

(** Every handler may be called at any time with any argument. *)
Definition unrestricted : policy := λ _ _, true.

(** [handleGenerate] is not called while an earlier call is suspended. *)
Definition one_at_a_time : policy := λ a e,
  match e with
  | EvGenerate => match pending a with [] => true | _ :: _ => false end
  | _ => true
  end.

(** [disabled={isGenerating || !prompt.trim()}] *)
Definition generate_disabled (s : State) : bool :=
  isGenerating s || negb (truthy (trim (prompt s))).

(** The triggers as the markup renders them: the generate button obeys
    [disabled]; the download and delete buttons exist only on the selected
    image and pass its fields.  An overlay on its way out is not part of the
    markup of the state. *)
Definition rendered : policy := λ a e,
  match e with
  | EvGenerate => negb (generate_disabled (now_at a))
  | EvDelete id =>
      match selectedImage (now_at a) with
      | Some sel => bool_decide (id = GeneratedImage.id sel)
      | None => false
      end
  | EvDownload url filename =>
      match selectedImage (now_at a) with
      | Some sel =>
          bool_decide (url = GeneratedImage.url sel
                       ∧ filename = js "lumina-" ++ GeneratedImage.id sel)
      | None => false
      end
  | EvDeleteOutgoing _ => false
  | _ => true
  end.

Inductive reachable (P : policy) (key : option jsstring) : App → Prop :=
  | reachable_mount : reachable P key (mount key)
  | reachable_step a e a' :
      reachable P key a → P a e = true → step a e = Some a' → reachable P key a'.

(** A run in which every event is checked against the policy before it fires;
    [after] is the state such a run ends in (the mounted one if it breaks). *)
Fixpoint run_under (P : policy) (a : App) (es : list Event) : option App :=
  match es with
  | [] => Some a
  | e :: es' => if P a e then a' ← step a e; run_under P a' es' else None
  end.

Definition after (P : policy) (key : option jsstring) (es : list Event) : App :=
  default (mount key) (run_under P (mount key) es).

(** ** What the markup shows of the state

    The state-dependent expressions of the returned markup, one definition
    per expression; class names and static text are left out. *)

(** [aspectRatio === ratio.value]: the ratio button drawn as active. *)
Definition ratio_active (s : State) (ratio : AspectRatioOption) : bool :=
  bool_decide (aspectRatio s = value ratio).

(** [isGenerating ? <>... Generating...</> : <>... Generate Image</>] *)
Definition generate_label (s : State) : jsstring :=
  if isGenerating s then js "Generating..." else js "Generate Image".

(** [{error && (<div>...{error}</div>)}]: the text in the red box, if the box
    is there at all. *)
Definition error_banner (s : State) : option jsstring :=
  match error s with
  | Some m => if truthy m then Some m else None
  | None => None
  end.

(** The main preview: [selectedImage ? image with overlay and prompt badge
    : (isGenerating ? spinner : placeholder)]. *)
Inductive Preview : Type :=
  | PreviewImage (src alt badge : jsstring)
  | PreviewSpinner
  | PreviewPlaceholder.

Definition preview (s : State) : Preview :=
  match selectedImage s with
  | Some sel =>
      PreviewImage (GeneratedImage.url sel) (GeneratedImage.prompt sel)
        (GeneratedImage.prompt sel)
  | None => if isGenerating s then PreviewSpinner else PreviewPlaceholder
  end.

(** [selectedImage?.id === img.id]: the thumbnail drawn with the indigo
    border. *)
Definition thumbnail_marked (s : State) (img : GeneratedImage) : bool :=
  match selectedImage s with
  | Some sel => bool_decide (GeneratedImage.id sel = GeneratedImage.id img)
  | None => false
  end.

Record Thumbnail : Type := {
  thumb_key : jsstring;
  thumb_src : jsstring;
  thumb_marked : bool
}.

Definition thumbnail_of (s : State) (img : GeneratedImage) : Thumbnail :=
  {| thumb_key := GeneratedImage.id img;
     thumb_src := GeneratedImage.url img;
     thumb_marked := thumbnail_marked s img |}.

(** [history.length > 0 ? history.map(...) : "No history yet"]; [None] is the
    dashed box. *)
Definition gallery (s : State) : option (list Thumbnail) :=
  if bool_decide (0 < length (history s))%nat
  then Some (thumbnail_of s <$> history s)
  else None.

(** [{history.length} Images] *)
Definition image_count (s : State) : nat := length (history s).

(** ** Predicates of the statements *)

Definition blank (s : jsstring) : Prop := Forall (λ c, is_white_space c = true) s.

Definition has_inlineData (p : Part) : Prop := is_Some (inlineData p).

(** Every content part the response holds, over all of its candidates. *)
Definition parts_of (c : Candidate) : list Part :=
  match content c with
  | Some ct => match parts ct with Some ps => ps | None => [] end
  | None => []
  end.

Definition all_parts (response : GenerateContentResponse) : list Part :=
  match candidates response with
  | Some cs => concat (map parts_of cs)
  | None => []
  end.

(** The selection, when there is one, is an entry of the history. *)
Definition selection_in_history (s : State) : Prop :=
  ∀ img, selectedImage s = Some img → img ∈ history s.

(** One of the five values of [ASPECT_RATIOS]. *)
Definition enumerated (ratio : jsstring) : Prop := ratio ∈ value <$> ASPECT_RATIOS.

Definition ratios_enumerated (a : App) : Prop :=
  enumerated (aspectRatio (now_at a))
  ∧ Forall (λ k, enumerated (closure_aspectRatio k)) (pending a)
  ∧ Forall (λ img, enumerated (GeneratedImage.aspectRatio img)) (history (now_at a)).

(** A [url] built by the loop of [handleGenerate]. *)
Definition png_data_uri (u : jsstring) : Prop :=
  ∃ payload, u = js "data:image/png;base64," ++ payload.

(** What every image and every suspended call carries. *)
Definition image_well_formed (img : GeneratedImage) : Prop :=
  png_data_uri (GeneratedImage.url img) ∧ trim (GeneratedImage.prompt img) ≠ [].

Definition images_well_formed (a : App) : Prop :=
  Forall (λ k, trim (closure_prompt k) ≠ []) (pending a)
  ∧ Forall image_well_formed (created a).

(** [error] is [null] or a non-empty string. *)
Definition error_shown_when_set (s : State) : Prop :=
  ∀ m, error s = Some m → truthy m = true.

(** Every file saved so far is an image of the log, saved under
    [lumina-<id>.png]. *)
Definition saves_are_images (a : App) : Prop :=
  Forall (λ f, ∃ img, img ∈ created a
                      ∧ saved_data f = GeneratedImage.url img
                      ∧ saved_as f = js "lumina-" ++ GeneratedImage.id img ++ js ".png")
    (saves (document (world a))).


(** No error is stored while a request is in flight. *)
Definition quiet_in_flight (a : App) : Prop :=
  pending a ≠ [] → error (now_at a) = None.

(** Nothing has been generated and nothing is under way. *)
Definition idle_and_empty (a : App) : Prop :=
  pending a = [] ∧ created a = []
  ∧ history (now_at a) = [] ∧ selectedImage (now_at a) = None
  ∧ isGenerating (now_at a) = false
  ∧ (error (now_at a) = None
     ∨ error (now_at a)
       = Some (js "API Key not found. Please check your environment variables.")).

(** The flag is up exactly while one invocation is suspended. *)
Definition flag_tracks_request (a : App) : Prop :=
  (pending a = [] ∧ isGenerating (now_at a) = false)
  ∨ (∃ k, pending a = [k] ∧ isGenerating (now_at a) = true).

(** ** Sample data

    The scenario of the specification: prompt "a red circle", ratio "1:1",
    a client, and answers of the capability. *)

Definition sample_client : GoogleGenAI := {| apiKey := js "key" |}.

Definition red_circle : State := setPrompt (js "a red circle") initialState.

Definition red_circle_waiting : State := setError None (setIsGenerating true red_circle).

Definition red_circle_closure : Closure :=
  {| closure_prompt := prompt red_circle; closure_aspectRatio := aspectRatio red_circle |}.

Definition png_part : Part :=
  {| inlineData := Some {| data := Some (js "iVBORw0KGgo=");
                           mimeType := Some (js "image/png") |};
     text := None |}.

Definition text_part : Part :=
  {| inlineData := None; text := Some (js "Here is your image.") |}.

Definition candidate_of (ps : list Part) : Candidate :=
  {| content := Some {| parts := Some ps |} |}.

Definition one_png : GenerateContentResponse :=
  {| candidates := Some [candidate_of [png_part]] |}.

Definition text_then_png : GenerateContentResponse :=
  {| candidates := Some [candidate_of [text_part; png_part]] |}.

Definition no_parts : GenerateContentResponse :=
  {| candidates := Some [candidate_of []] |}.

Definition png_in_second_candidate : GenerateContentResponse :=
  {| candidates := Some [candidate_of [text_part]; candidate_of [png_part]] |}.

Definition rate_limited : Fault := Error "rate limited".

Definition sample_key : option jsstring := Some (js "key").

(** Two images generated one after the other, then the older one selected. *)
Definition two_images : list Event :=
  [ EvSetPrompt (js "a red circle"); EvGenerate;
    EvSettle 0 (Fulfilled one_png) (js "x7k2q") 1700000000000%Z;
    EvSetPrompt (js "a blue square"); EvSetAspectRatio 1; EvGenerate;
    EvSettle 0 (Fulfilled text_then_png) (js "m3p9z") 1700000005000%Z;
    EvSelect 1 ].

(** After [two_images]: the selected red circle is deleted from its overlay
    and the blue square is clicked in the gallery. *)
Definition red_deleted_blue_selected : list Event :=
  two_images ++ [EvDelete (js "x7k2q"); EvSelect 0].

Definition red_circle_image : GeneratedImage :=
  GeneratedImage.mk (js "x7k2q") (js "data:image/png;base64,iVBORw0KGgo=")
    (js "a red circle") 1700000000000%Z (js "1:1").

Definition blue_square_image : GeneratedImage :=
  GeneratedImage.mk (js "m3p9z") (js "data:image/png;base64,iVBORw0KGgo=")
    (js "a blue square") 1700000005000%Z (js "16:9").

(** [handleGenerate] called a second time while the first call is suspended,
    then the first request rejected. *)
Definition overlapping : list Event :=
  [ EvSetPrompt (js "a red circle"); EvGenerate; EvGenerate;
    EvSettle 0 (Rejected rate_limited) (js "x7k2q") 1700000000000%Z ].


(** * Properties *)

(** ** Strings *)

Lemma trimStart_blank (s : jsstring) : blank s → trimStart s = [].
Proof.
  induction 1 as [|c s Hc _ IH]; simpl; [done|]. by rewrite Hc.
Qed.

Lemma trimStart_nil_blank (s : jsstring) : trimStart s = [] → blank s.
Proof.
  unfold blank. induction s as [|c s IH]; simpl; [constructor|].
  destruct (is_white_space c) eqn:Hc; [|done].
  intros Hs. constructor; auto.
Qed.

Lemma blank_reverse (s : jsstring) : blank (reverse s) ↔ blank s.
Proof. unfold blank. by rewrite Forall_reverse. Qed.

Lemma reverse_nil_inv {A} (l : list A) : reverse l = [] → l = [].
Proof.
  intros H. apply (f_equal length) in H. rewrite length_reverse in H.
  by destruct l.
Qed.

(** [prompt.trim()] is the empty string exactly for a prompt made of white
    space only (the empty prompt included). *)
Lemma trim_nil_iff (s : jsstring) : trim s = [] ↔ blank s.
Proof.
  unfold trim, trimEnd. split.
  - intros H. apply reverse_nil_inv, trimStart_nil_blank in H.
    apply (proj1 (blank_reverse _)) in H. apply trimStart_nil_blank.
    destruct (trimStart s) as [|c t] eqn:E; [done|]. exfalso.
    assert (is_white_space c = false) as Hc.
    { clear H. induction s as [|d s IH]; simpl in E; [done|].
      destruct (is_white_space d) eqn:Hd; [auto|]. by simplify_eq. }
    apply (proj1 (Forall_cons _ _ _)) in H as [H _]. congruence.
  - intros H. by rewrite (trimStart_blank s H).
Qed.

Lemma truthy_trim_false (s : jsstring) : truthy (trim s) = false ↔ blank s.
Proof. rewrite <- trim_nil_iff. by destruct (trim s). Qed.

Lemma truthy_trim_true (s : jsstring) : truthy (trim s) = true ↔ trim s ≠ [].
Proof. by destruct (trim s). Qed.

(** ** [handleGenerate], up to the request *)

Lemma handleGenerate_blank (ai : option GoogleGenAI) (s : State) :
  blank (prompt s) → handleGenerate ai s = Returned s.
Proof.
  intros H. unfold handleGenerate.
  by rewrite (proj2 (truthy_trim_false _) H).
Qed.

Lemma handleGenerate_no_client (s : State) :
  trim (prompt s) ≠ [] →
  handleGenerate None s =
    Returned (setError
      (Some (js "API Key not found. Please check your environment variables.")) s).
Proof.
  intros H. unfold handleGenerate.
  by rewrite (proj2 (truthy_trim_true _) H).
Qed.

Lemma handleGenerate_request (client : GoogleGenAI) (s : State) :
  trim (prompt s) ≠ [] →
  handleGenerate (Some client) s =
    Awaiting (setError None (setIsGenerating true s))
      {| model := js "gemini-2.5-flash-image";
         contents_text := prompt s;
         config_aspectRatio := aspectRatio s |}
      {| closure_prompt := prompt s; closure_aspectRatio := aspectRatio s |}.
Proof.
  intros H. unfold handleGenerate.
  by rewrite (proj2 (truthy_trim_true _) H).
Qed.

(** No path through the synchronous half lowers or raises the flag unless a
    request goes out, and then it raises it. *)
Lemma handleGenerate_flag (ai : option GoogleGenAI) (s : State) :
  isGenerating (state_of (handleGenerate ai s)) =
    match request_of (handleGenerate ai s) with
    | Some _ => true
    | None => isGenerating s
    end.
Proof.
  unfold handleGenerate.
  destruct (negb (truthy (trim (prompt s)))); [done|]. by destruct ai.
Qed.

Lemma handleGenerate_history (ai : option GoogleGenAI) (s : State) :
  history (state_of (handleGenerate ai s)) = history s
  ∧ selectedImage (state_of (handleGenerate ai s)) = selectedImage s.
Proof.
  unfold handleGenerate.
  destruct (negb (truthy (trim (prompt s)))); [done|]. by destruct ai.
Qed.

(** C9. With a prompt that is empty or made of white space only,
    [handleGenerate] returns at its first line: it hands no request to the
    capability and the state after the call is the state before it, so
    [history], [selectedImage], [error], [aspectRatio], [prompt] and
    [isGenerating] all keep their values. *)
Theorem generate_blank_prompt_is_noop (ai : option GoogleGenAI) (s : State) :
  blank (prompt s) →
  request_of (handleGenerate ai s) = None
  ∧ state_of (handleGenerate ai s) = s
  ∧ ∀ a, aiRef a = ai → now_at a = s → step a EvGenerate = Some (with_session s a).
Proof.
  intros H. rewrite (handleGenerate_blank ai s H). repeat split.
  intros a <- <-. simpl. by rewrite (handleGenerate_blank _ _ H).
Qed.

Lemma generate_blank_prompt_is_noop_witness :
  let s := setPrompt [32; 9; 10; 160; 8202; 12288] initialState in
  request_of (handleGenerate (Some {| apiKey := js "key" |}) s) = None
  ∧ state_of (handleGenerate (Some {| apiKey := js "key" |}) s) = s.
Proof.
  intros s.
  destruct (generate_blank_prompt_is_noop (Some {| apiKey := js "key" |}) s) as (H1 & H2 & _).
  - unfold blank. simpl. repeat constructor.
  - by split.
Defined.

(** C4, as the source has it. Without a client, [handleGenerate] hands no
    request to the capability and leaves [isGenerating] as it was, for every
    prompt; when the prompt is non-empty after trimming it stores the fixed
    configuration message in [error] and changes nothing else. *)
Theorem generate_without_credential (s : State) :
  request_of (handleGenerate None s) = None
  ∧ isGenerating (state_of (handleGenerate None s)) = isGenerating s
  ∧ (trim (prompt s) ≠ [] →
     state_of (handleGenerate None s) =
       setError
         (Some (js "API Key not found. Please check your environment variables.")) s).
Proof.
  split; [|split].
  - unfold handleGenerate. by destruct (negb _).
  - unfold handleGenerate. by destruct (negb _).
  - intros H. by rewrite handleGenerate_no_client.
Qed.

Lemma generate_without_credential_witness :
  error (state_of (handleGenerate None (setPrompt (js "a red circle") initialState)))
  = Some (js "API Key not found. Please check your environment variables.").
Proof.
  pose proof (generate_without_credential (setPrompt (js "a red circle") initialState))
    as (_ & _ & H).
  rewrite H; [reflexivity|]. vm_compute. discriminate.
Defined.

(** C4, as the claim words it, fails on a blank prompt: the call returns
    before the client is looked at and [error] stays empty. *)
Lemma blank_prompt_hides_missing_credential :
  useEffect_init None = None
  ∧ handleGenerate (useEffect_init None) initialState = Returned initialState
  ∧ error (state_of (handleGenerate (useEffect_init None) initialState)) = None.
Proof. by vm_compute. Qed.

(** ** The loop over the content parts *)

Lemma imageUrl_of_none (ps : list Part) :
  Forall (λ p, inlineData p = None) ps → imageUrl_of ps = [].
Proof. induction 1 as [|p ps Hp _ IH]; simpl; [done|]. by rewrite Hp. Qed.

Lemma imageUrl_of_first (before after : list Part) (part : Part) (b : Blob) :
  Forall (λ p, inlineData p = None) before →
  inlineData part = Some b →
  imageUrl_of (before ++ part :: after) = js "data:image/png;base64," ++ interpolate (data b).
Proof.
  intros Hbefore Hpart.
  induction Hbefore as [|p ps Hp _ IH]; simpl.
  - by rewrite Hpart.
  - by rewrite Hp.
Qed.

Lemma first_inlineData (ps : list Part) :
  Exists has_inlineData ps →
  ∃ before part b after,
    ps = before ++ part :: after
    ∧ Forall (λ p, inlineData p = None) before
    ∧ inlineData part = Some b.
Proof.
  induction ps as [|p ps IH]; intros H; [by apply Exists_nil in H|].
  destruct (inlineData p) as [b|] eqn:Hp.
  - by exists [], p, b, ps.
  - apply Exists_cons in H as [[b Hb]|H]; [congruence|].
    destruct (IH H) as (before & part & b & after & -> & Hbefore & Hpart).
    exists (p :: before), part, b, after. by repeat split; [constructor|].
Qed.

Lemma imageUrl_of_truthy (ps : list Part) :
  truthy (imageUrl_of ps) = true ↔ Exists has_inlineData ps.
Proof.
  split.
  - induction ps as [|p ps IH]; simpl; [done|].
    destruct (inlineData p) as [b|] eqn:Hp.
    + intros _. left. by exists b.
    + intros H. right. auto.
  - intros H. destruct (first_inlineData ps H) as (bf & pt & b & af & -> & H1 & H2).
    by rewrite (imageUrl_of_first bf af pt b H1 H2).
Qed.

(** ** [handleGenerate], from the settled promise on *)

Lemma resume_success (k : Closure) (response : GenerateContentResponse)
    (random_id : jsstring) (now : Z) (s : State) :
  Exists has_inlineData (content_parts response) →
  handleGenerate_resume k (Fulfilled response) random_id now s =
    let newImage := newImage_of k (imageUrl_of (content_parts response)) random_id now in
    mkState (js "") false (aspectRatio s) (newImage :: history s) (Some newImage) (error s).
Proof.
  intros H. unfold handleGenerate_resume, try_block.
  by rewrite (proj2 (imageUrl_of_truthy _) H).
Qed.

Lemma resume_empty (k : Closure) (response : GenerateContentResponse)
    (random_id : jsstring) (now : Z) (s : State) :
  Forall (λ p, inlineData p = None) (content_parts response) →
  handleGenerate_resume k (Fulfilled response) random_id now s =
    mkState (prompt s) false (aspectRatio s) (history s) (selectedImage s)
      (Some (js "No image data returned from the model.")).
Proof.
  intros H. unfold handleGenerate_resume, try_block.
  by rewrite (imageUrl_of_none _ H).
Qed.

Lemma resume_fault (k : Closure) (err : Fault)
    (random_id : jsstring) (now : Z) (s : State) :
  handleGenerate_resume k (Rejected err) random_id now s =
    mkState (prompt s) false (aspectRatio s) (history s) (selectedImage s)
      (Some (or_else (message err) (js "An unexpected error occurred during generation."))).
Proof. done. Qed.


(** What a settled request does to the history, in terms of [logged]. *)
Lemma resume_history (k : Closure) (o : Settled)
    (random_id : jsstring) (now : Z) (s : State) :
  history (handleGenerate_resume k o random_id now s)
  = logged k o random_id now s ++ history s.
Proof.
  unfold handleGenerate_resume, logged. destruct o as [response|err]; [|done].
  unfold try_block. by destruct (truthy _).
Qed.

Lemma resume_selection (k : Closure) (o : Settled)
    (random_id : jsstring) (now : Z) (s : State) :
  selectedImage (handleGenerate_resume k o random_id now s)
  = match logged k o random_id now s with
    | img :: _ => Some img
    | [] => selectedImage s
    end.
Proof.
  unfold handleGenerate_resume, logged. destruct o as [response|err]; [|done].
  unfold try_block. by destruct (truthy _).
Qed.

Lemma logged_length (k : Closure) (o : Settled)
    (random_id : jsstring) (now : Z) (s : State) :
  (length (logged k o random_id now s) ≤ 1)%nat.
Proof.
  unfold logged. destruct o as [response|err]; simpl; [|lia].
  destruct (try_block _ _ _ _ _); simpl; lia.
Qed.

(** The resumed half gets through its [try] block exactly when the parts it
    reads hold an inline image. *)
Lemma try_block_succeeds_iff (k : Closure) (response : GenerateContentResponse)
    (random_id : jsstring) (now : Z) (s : State) :
  (∃ s', try_block k response random_id now s = inr s')
  ↔ Exists has_inlineData (content_parts response).
Proof.
  rewrite <- imageUrl_of_truthy. unfold try_block.
  destruct (truthy _); split; try done; [by eexists|by intros [? ?]].
Qed.

(** C1. A call of [handleGenerate] with a prompt that is non-empty after
    trimming and a configured client suspends on one request carrying the
    prompt and the aspect ratio of the clicked render; when that call
    succeeds, that is when the parts read from the answer hold an inline
    image, the handler prepends exactly one new image to the history it then
    finds, the image carries the prompt and the aspect ratio of the
    invocation (and the drawn id and the clock's time), it becomes the
    selected image, and [prompt] is set to the empty string. *)
Theorem generate_success (client : GoogleGenAI) (s live : State)
    (response : GenerateContentResponse) (random_id : jsstring) (now : Z) :
  trim (prompt s) ≠ [] →
  Exists has_inlineData (content_parts response) →
  ∃ s1 request k newImage,
    handleGenerate (Some client) s = Awaiting s1 request k
    ∧ contents_text request = prompt s
    ∧ config_aspectRatio request = aspectRatio s
    ∧ GeneratedImage.prompt newImage = prompt s
    ∧ GeneratedImage.aspectRatio newImage = aspectRatio s
    ∧ GeneratedImage.id newImage = random_id
    ∧ GeneratedImage.timestamp newImage = now
    ∧ history (handleGenerate_resume k (Fulfilled response) random_id now live)
      = newImage :: history live
    ∧ selectedImage (handleGenerate_resume k (Fulfilled response) random_id now live)
      = Some newImage
    ∧ prompt (handleGenerate_resume k (Fulfilled response) random_id now live) = js ""
    ∧ error (handleGenerate_resume k (Fulfilled response) random_id now live) = error live.
Proof.
  intros Hprompt Hparts.
  eexists _, _, _, _. split; [by apply handleGenerate_request|].
  rewrite (resume_success _ _ _ _ _ Hparts). simpl. by repeat split.
Qed.

Lemma generate_success_witness :
  ∃ s1 request k newImage,
    handleGenerate (Some sample_client) red_circle = Awaiting s1 request k
    ∧ contents_text request = prompt red_circle
    ∧ config_aspectRatio request = aspectRatio red_circle
    ∧ GeneratedImage.prompt newImage = prompt red_circle
    ∧ GeneratedImage.aspectRatio newImage = aspectRatio red_circle
    ∧ GeneratedImage.id newImage = js "x7k2q"
    ∧ GeneratedImage.timestamp newImage = 1700000000000%Z
    ∧ history (handleGenerate_resume k (Fulfilled one_png) (js "x7k2q")
                 1700000000000%Z red_circle_waiting)
      = newImage :: history red_circle_waiting
    ∧ selectedImage (handleGenerate_resume k (Fulfilled one_png) (js "x7k2q")
                       1700000000000%Z red_circle_waiting)
      = Some newImage
    ∧ prompt (handleGenerate_resume k (Fulfilled one_png) (js "x7k2q")
                1700000000000%Z red_circle_waiting) = js ""
    ∧ error (handleGenerate_resume k (Fulfilled one_png) (js "x7k2q")
               1700000000000%Z red_circle_waiting) = error red_circle_waiting.
Proof.
  apply (generate_success sample_client red_circle red_circle_waiting one_png
           (js "x7k2q") 1700000000000%Z).
  - vm_compute. discriminate.
  - left. by eexists.
Defined.

Lemma content_parts_all_parts (response : GenerateContentResponse) :
  ∃ rest, all_parts response = content_parts response ++ rest.
Proof.
  unfold all_parts, content_parts.
  destruct (candidates response) as [[|c cs]|]; simpl; try by exists [].
  exists (concat (map parts_of cs)). unfold parts_of.
  by destruct (content c) as [[[ps|]]|].
Qed.

Lemma all_parts_none (response : GenerateContentResponse) :
  Forall (λ p, inlineData p = None) (all_parts response) →
  Forall (λ p, inlineData p = None) (content_parts response).
Proof.
  destruct (content_parts_all_parts response) as [rest ->].
  intros H. by apply Forall_app in H as [H _].
Qed.

(** C3. When the answer's content parts hold no inline image (in
    particular when no part of any candidate holds one), the handler stores
    exactly "No image data returned from the model." in [error] and leaves the
    history as it found it.  When the request is rejected, the history is left
    as found and [error] becomes the fault's message if it has a non-empty one,
    and the generic fallback string otherwise. *)
Theorem generate_failure (k : Closure) (random_id : jsstring) (now : Z) (live : State) :
  (∀ response,
     Forall (λ p, inlineData p = None) (content_parts response)
     ∨ Forall (λ p, inlineData p = None) (all_parts response) →
     error (handleGenerate_resume k (Fulfilled response) random_id now live)
       = Some (js "No image data returned from the model.")
     ∧ history (handleGenerate_resume k (Fulfilled response) random_id now live)
       = history live)
  ∧ (∀ err,
       history (handleGenerate_resume k (Rejected err) random_id now live) = history live
       ∧ (∀ m, message err = Some m → m ≠ [] →
            error (handleGenerate_resume k (Rejected err) random_id now live) = Some m)
       ∧ (message err = None ∨ message err = Some [] →
            error (handleGenerate_resume k (Rejected err) random_id now live)
              = Some (js "An unexpected error occurred during generation."))).
Proof.
  split.
  - intros response H.
    assert (Forall (λ p, inlineData p = None) (content_parts response)) as H'
      by (destruct H; [done|by apply all_parts_none]).
    by rewrite (resume_empty _ _ _ _ _ H').
  - intros err. rewrite resume_fault. simpl. split; [done|]. split.
    + intros m -> Hm. simpl. by destruct m.
    + by intros [-> | ->].
Qed.

(** The two failure scenarios of the specification. *)
Lemma generate_failure_witness :
  (error (handleGenerate_resume red_circle_closure (Fulfilled no_parts) (js "x7k2q")
            1700000000000%Z red_circle_waiting)
     = Some (js "No image data returned from the model.")
   ∧ history (handleGenerate_resume red_circle_closure (Fulfilled no_parts) (js "x7k2q")
                1700000000000%Z red_circle_waiting)
     = history red_circle_waiting)
  ∧ error (handleGenerate_resume red_circle_closure (Rejected rate_limited) (js "x7k2q")
             1700000000000%Z red_circle_waiting)
    = Some (js "rate limited").
Proof.
  destruct (generate_failure red_circle_closure (js "x7k2q") 1700000000000%Z
              red_circle_waiting) as [Hempty Hfault].
  split.
  - apply Hempty. left. constructor.
  - destruct (Hfault rate_limited) as (_ & Hmsg & _).
    apply Hmsg; [reflexivity|]. vm_compute. discriminate.
Defined.

(** C5, as the source has it. When the content parts of the answer's first
    candidate hold an inline image, the handler takes the first part that has
    one, builds the image's [url] by putting the PNG data-URI prefix in front
    of that part's base64 text, prepends the image and selects it. *)
Theorem first_inline_payload_decoded (k : Closure) (response : GenerateContentResponse)
    (random_id : jsstring) (now : Z) (live : State) :
  Exists has_inlineData (content_parts response) →
  ∃ before part b after newImage,
    content_parts response = before ++ part :: after
    ∧ Forall (λ p, inlineData p = None) before
    ∧ inlineData part = Some b
    ∧ GeneratedImage.url newImage = js "data:image/png;base64," ++ interpolate (data b)
    ∧ history (handleGenerate_resume k (Fulfilled response) random_id now live)
      = newImage :: history live
    ∧ selectedImage (handleGenerate_resume k (Fulfilled response) random_id now live)
      = Some newImage
    ∧ error (handleGenerate_resume k (Fulfilled response) random_id now live) = error live.
Proof.
  intros H.
  destruct (first_inlineData _ H) as (before & part & b & after & Hparts & Hbefore & Hpart).
  exists before, part, b, after. eexists. rewrite (resume_success _ _ _ _ _ H). simpl.
  repeat split; try done.
  rewrite Hparts. by apply imageUrl_of_first.
Qed.

Lemma first_inline_payload_decoded_witness :
  ∃ before part b after newImage,
    content_parts text_then_png = before ++ part :: after
    ∧ Forall (λ p, inlineData p = None) before
    ∧ inlineData part = Some b
    ∧ GeneratedImage.url newImage = js "data:image/png;base64," ++ interpolate (data b)
    ∧ history (handleGenerate_resume red_circle_closure (Fulfilled text_then_png)
                 (js "x7k2q") 1700000000000%Z red_circle_waiting)
      = newImage :: history red_circle_waiting
    ∧ selectedImage (handleGenerate_resume red_circle_closure (Fulfilled text_then_png)
                       (js "x7k2q") 1700000000000%Z red_circle_waiting)
      = Some newImage
    ∧ error (handleGenerate_resume red_circle_closure (Fulfilled text_then_png)
               (js "x7k2q") 1700000000000%Z red_circle_waiting)
      = error red_circle_waiting.
Proof.
  apply (first_inline_payload_decoded red_circle_closure text_then_png (js "x7k2q")
           1700000000000%Z red_circle_waiting).
  right. left. by eexists.
Defined.

(** C5, as the claim words it, fails when the only inline image sits in a
    later candidate: the loop reads the parts of [candidates[0]] alone, finds
    none, and the call ends as an empty result. *)
Lemma payload_in_later_candidate_not_decoded :
  Exists has_inlineData (all_parts png_in_second_candidate)
  ∧ history (handleGenerate_resume red_circle_closure (Fulfilled png_in_second_candidate)
               (js "x7k2q") 1700000000000%Z red_circle_waiting) = []
  ∧ selectedImage (handleGenerate_resume red_circle_closure (Fulfilled png_in_second_candidate)
                     (js "x7k2q") 1700000000000%Z red_circle_waiting) = None
  ∧ error (handleGenerate_resume red_circle_closure (Fulfilled png_in_second_candidate)
             (js "x7k2q") 1700000000000%Z red_circle_waiting)
    = Some (js "No image data returned from the model.").
Proof.
  split; [|by vm_compute].
  right. left. by eexists.
Qed.

(** ** [deleteImage] and the thumbnails *)

Section Filter.
Context {A : Type} (P : A → Prop) `{!∀ x, Decision (P x)}.

Lemma filter_all (l : list A) : Forall P l → filter P l = l.
Proof.
  induction 1 as [|x l Hx _ IH]; [done|].
  rewrite filter_cons_True by done. by rewrite IH.
Qed.

Lemma sublist_filter_mono (l1 l2 : list A) :
  l1 `sublist_of` l2 → filter P l1 `sublist_of` filter P l2.
Proof.
  induction 1 as [|x l1 l2 _ IH|x l1 l2 _ IH]; [done| |].
  - rewrite !filter_cons. destruct (decide (P x)); [by constructor|done].
  - rewrite filter_cons. destruct (decide (P x)); [by constructor|done].
Qed.
End Filter.

Lemma deleteImage_history (captured : option GeneratedImage) (id : jsstring) (s : State) :
  history (deleteImage captured id s)
  = filter (λ img, GeneratedImage.id img ≠ id) (history s).
Proof.
  unfold deleteImage. destruct captured as [sel|]; [|done].
  by destruct (decide _).
Qed.

Lemma deleteImage_selection_captured (captured : option GeneratedImage) (id : jsstring)
    (s : State) :
  selectedImage (deleteImage captured id s)
  = match captured with
    | Some sel => if decide (GeneratedImage.id sel = id) then None else selectedImage s
    | None => selectedImage s
    end.
Proof.
  unfold deleteImage. destruct captured as [sel|]; [|done].
  by destruct (decide _).
Qed.

Lemma deleteImage_selection (id : jsstring) (s : State) :
  selectedImage (deleteImage_current id s)
  = match selectedImage s with
    | Some sel => if decide (GeneratedImage.id sel = id) then None else Some sel
    | None => None
    end.
Proof.
  rewrite deleteImage_selection_captured.
  destruct (selectedImage s) as [sel|] eqn:E; [|done].
  by destruct (decide _).
Qed.

Lemma deleteImage_frame (captured : option GeneratedImage) (id : jsstring) (s : State) :
  prompt (deleteImage captured id s) = prompt s
  ∧ isGenerating (deleteImage captured id s) = isGenerating s
  ∧ aspectRatio (deleteImage captured id s) = aspectRatio s
  ∧ error (deleteImage captured id s) = error s.
Proof.
  unfold deleteImage. destruct captured as [sel|]; [|done].
  by destruct (decide _).
Qed.

Lemma deleteImage_sublist (captured : option GeneratedImage) (id : jsstring) (s : State) :
  history (deleteImage captured id s) `sublist_of` history s.
Proof. rewrite deleteImage_history. apply sublist_filter. Qed.

Lemma deleteImage_keeps_selection_in_history (id : jsstring) (s : State) :
  selection_in_history s → selection_in_history (deleteImage_current id s).
Proof.
  intros Hs img. rewrite deleteImage_selection, deleteImage_history.
  destruct (selectedImage s) as [sel|] eqn:Hsel; [|done].
  destruct (decide _) as [|Hne]; [done|]. intros [= <-].
  apply list_elem_of_filter. split; [done|]. by apply Hs.
Qed.

(** The overlay passes the id of the image it captured, so its call always
    empties the selection. *)
Lemma deleteImage_outgoing_selection (sel : GeneratedImage) (s : State) :
  selectedImage (deleteImage (Some sel) (GeneratedImage.id sel) s) = None.
Proof. rewrite deleteImage_selection_captured. by rewrite decide_True. Qed.

Lemma deleteImage_outgoing_keeps_selection_in_history (sel : GeneratedImage) (s : State) :
  selection_in_history (deleteImage (Some sel) (GeneratedImage.id sel) s).
Proof. intros img. by rewrite deleteImage_outgoing_selection. Qed.

Lemma State_eq (s t : State) :
  prompt s = prompt t → isGenerating s = isGenerating t →
  aspectRatio s = aspectRatio t → history s = history t →
  selectedImage s = selectedImage t → error s = error t → s = t.
Proof. destruct s, t; simpl; congruence. Qed.

(** Called from the render on the page, in a state whose selection is an
    entry of the history: [deleteImage id] keeps an entry exactly when its id
    differs from [id]; the kept entries stay in their order and none of them
    is dropped, so when one entry has that id the history loses that entry and
    no other; the selection becomes empty when the selected image has that id
    and is kept otherwise; and when no entry has that id the call changes
    nothing at all. *)
Lemma deleteImage_current_removes_exactly (id : jsstring) (s : State) :
  selection_in_history s →
  (∀ img, img ∈ history (deleteImage_current id s)
          ↔ GeneratedImage.id img ≠ id ∧ img ∈ history s)
  ∧ history (deleteImage_current id s) `sublist_of` history s
  ∧ (∀ l, l `sublist_of` history s → Forall (λ img, GeneratedImage.id img ≠ id) l →
          l `sublist_of` history (deleteImage_current id s))
  ∧ (∀ l1 img l2,
       history s = l1 ++ img :: l2 → GeneratedImage.id img = id →
       Forall (λ x, GeneratedImage.id x ≠ id) (l1 ++ l2) →
       history (deleteImage_current id s) = l1 ++ l2)
  ∧ (∀ sel, selectedImage s = Some sel → GeneratedImage.id sel = id →
            selectedImage (deleteImage_current id s) = None)
  ∧ (∀ sel, selectedImage s = Some sel → GeneratedImage.id sel ≠ id →
            selectedImage (deleteImage_current id s) = Some sel)
  ∧ (Forall (λ img, GeneratedImage.id img ≠ id) (history s) →
     deleteImage_current id s = s).
Proof.
  intros Hinv. rewrite deleteImage_history, deleteImage_selection.
  split; [|split; [|split; [|split; [|split; [|split]]]]].
  - intros img. by rewrite list_elem_of_filter.
  - apply sublist_filter.
  - intros l Hl Hall.
    rewrite <- (filter_all (λ img, GeneratedImage.id img ≠ id) l Hall).
    by apply sublist_filter_mono.
  - intros l1 img l2 -> Himg Hall. apply Forall_app in Hall as [H1 H2].
    rewrite filter_app, filter_cons_False by (intros ?; done).
    by rewrite !filter_all.
  - intros sel -> Hsel. by rewrite decide_True.
  - intros sel -> Hsel. by rewrite decide_False.
  - intros Hall.
    destruct (deleteImage_frame (selectedImage s) id s) as (Hp & Hg & Ha & He).
    apply State_eq; try done.
    + rewrite deleteImage_history. by apply filter_all.
    + rewrite deleteImage_selection.
      destruct (selectedImage s) as [sel|] eqn:Hsel; [|done].
      rewrite decide_False; [done|].
      apply (proj1 (Forall_forall _ _) Hall). by apply Hinv.
Qed.

(** C6, on the code. The delete button of an overlay on its way out calls
    [deleteImage] with the selection its render captured.  Here the red
    circle was selected and deleted, then the blue square was selected while
    the red circle's overlay was still leaving; its delete button is clicked
    again.  No entry of the history has the id ["x7k2q"] and the history
    stays as it is, yet the call is not a no-op: the test of line 115 reads
    the captured red circle, so the selection of the blue square, whose id
    differs from the one passed, is emptied. *)
Lemma deleteImage_outgoing_overlay_clears_selection :
  history (now_at (after unrestricted sample_key red_deleted_blue_selected))
    = [blue_square_image]
  ∧ selectedImage (now_at (after unrestricted sample_key red_deleted_blue_selected))
    = Some blue_square_image
  ∧ filter (λ img, GeneratedImage.id img = js "x7k2q")
      (history (now_at (after unrestricted sample_key red_deleted_blue_selected))) = []
  ∧ history (deleteImage (Some red_circle_image) (js "x7k2q")
               (now_at (after unrestricted sample_key red_deleted_blue_selected)))
    = [blue_square_image]
  ∧ selectedImage (deleteImage (Some red_circle_image) (js "x7k2q")
                     (now_at (after unrestricted sample_key red_deleted_blue_selected)))
    = None
  ∧ now_at (after unrestricted sample_key
              (red_deleted_blue_selected ++ [EvDeleteOutgoing red_circle_image]))
    = deleteImage (Some red_circle_image) (js "x7k2q")
        (now_at (after unrestricted sample_key red_deleted_blue_selected)).
Proof. by vm_compute. Qed.

(** ** Reachable states *)

Lemma reachable_run_under (P : policy) (key : option jsstring) (es : list Event) (a a' : App) :
  reachable P key a → run_under P a es = Some a' → reachable P key a'.
Proof.
  revert a. induction es as [|e es IH]; intros a Ha; simpl.
  - by intros [= <-].
  - destruct (P a e) eqn:HP; [|done].
    destruct (step a e) as [a1|] eqn:Hstep; [|done]. simpl.
    apply IH. by eapply reachable_step.
Qed.

Lemma reachable_after (P : policy) (key : option jsstring) (es : list Event) :
  reachable P key (after P key es).
Proof.
  unfold after. destruct (run_under P (mount key) es) as [a|] eqn:E; simpl.
  - eapply reachable_run_under; [constructor|exact E].
  - constructor.
Qed.

Lemma reachable_weaken (P Q : policy) (key : option jsstring) (a : App) :
  (∀ a e, P a e = true → Q a e = true) → reachable P key a → reachable Q key a.
Proof.
  intros HPQ. induction 1 as [|a e a' _ IH HP Hstep]; [constructor|].
  eapply reachable_step; eauto.
Qed.

(** Whatever a policy lets the component reach is reached when every handler
    may be called at any time. *)
Lemma reachable_unrestricted (P : policy) (key : option jsstring) (a : App) :
  reachable P key a → reachable unrestricted key a.
Proof. by apply reachable_weaken. Qed.

(** What one event does to the history and to the log. *)
Lemma step_history (a a' : App) (e : Event) :
  step a e = Some a' →
  match e with
  | EvSettle _ _ _ _ =>
      ∃ new, (length new ≤ 1)%nat
             ∧ history (now_at a') = new ++ history (now_at a)
             ∧ created a' = new ++ created a
  | EvDelete _ | EvDeleteOutgoing _ =>
      history (now_at a') `sublist_of` history (now_at a) ∧ created a' = created a
  | _ => history (now_at a') = history (now_at a) ∧ created a' = created a
  end.
Proof.
  destruct e as [text|i| |n o rid now|i|id|url filename|out]; simpl.
  - by intros [= <-].
  - destruct (ASPECT_RATIOS !! i); simpl; [|done]. by intros [= <-].
  - pose proof (handleGenerate_history (aiRef a) (now_at a)) as [H _].
    destruct (handleGenerate _ _); intros [= <-]; by split.
  - destruct (pending a !! n) as [k|]; simpl; [|done]. intros [= <-].
    exists (logged k o rid now (now_at a)).
    split; [apply logged_length|]. split; [apply resume_history|done].
  - destruct (history (now_at a) !! i); simpl; [|done]. by intros [= <-].
  - intros [= <-]. split; [apply deleteImage_sublist|done].
  - by intros [= <-].
  - intros [= <-]. split; [apply deleteImage_sublist|done].
Qed.

Lemma step_keeps_log_order (a a' : App) (e : Event) :
  step a e = Some a' →
  history (now_at a) `sublist_of` created a →
  history (now_at a') `sublist_of` created a'.
Proof.
  intros Hstep Hinv. apply step_history in Hstep.
  destruct e as [text|i| |n o rid now|i|id|url filename|out].
  1-3, 5, 7: destruct Hstep as [Hh Hc]; by rewrite Hh, Hc.
  - destruct Hstep as (new & _ & Hh & Hc). rewrite Hh, Hc. by apply sublist_app.
  - destruct Hstep as [Hsub Hc]. rewrite Hc. by etrans.
  - destruct Hstep as [Hsub Hc]. rewrite Hc. by etrans.
Qed.

Lemma step_keeps_selection_in_history (a a' : App) (e : Event) :
  step a e = Some a' →
  selection_in_history (now_at a) → selection_in_history (now_at a').
Proof.
  intros Hstep Hinv.
  destruct e as [text|i| |n o rid now|i|id|url filename|out]; simpl in Hstep.
  - by simplify_eq.
  - destruct (ASPECT_RATIOS !! i); simpl in Hstep; by simplify_eq.
  - pose proof (handleGenerate_history (aiRef a) (now_at a)) as [Hh Hs].
    destruct (handleGenerate _ _); simplify_eq; intros img; unfold now_at; simpl;
      simpl in Hh, Hs; rewrite Hh, Hs; apply Hinv.
  - destruct (pending a !! n) as [k|]; simpl in Hstep; simplify_eq. intros img. unfold now_at.
    cbn [world session]. fold (now_at a). rewrite resume_selection, resume_history.
    destruct (logged _ _ _ _ _) as [|new rest]; [apply Hinv|].
    intros [= <-]. by left.
  - destruct (history (now_at a) !! i) as [img|] eqn:Hi; simpl in Hstep; simplify_eq.
    intros img' [= <-]. unfold now_at. simpl. by eapply list_elem_of_lookup_2.
  - simplify_eq. by apply deleteImage_keeps_selection_in_history.
  - by simplify_eq.
  - simplify_eq. apply deleteImage_outgoing_keeps_selection_in_history.
Qed.

(** C7. In every state the component reaches, under any use of its
    handlers, the history is an order-preserving subsequence of the log of
    created images, which runs from the latest to the earliest.  A settled
    request puts at most one new image in front of both; selecting leaves the
    history as it is; deleting leaves a subsequence of it, so the surviving
    entries keep their relative order. *)
Theorem history_in_insertion_order (key : option jsstring) (a : App) :
  reachable unrestricted key a →
  history (now_at a) `sublist_of` created a
  ∧ (∀ n o random_id now a',
       step a (EvSettle n o random_id now) = Some a' →
       ∃ new, (length new ≤ 1)%nat
              ∧ history (now_at a') = new ++ history (now_at a)
              ∧ created a' = new ++ created a)
  ∧ (∀ i a', step a (EvSelect i) = Some a' →
             history (now_at a') = history (now_at a) ∧ created a' = created a)
  ∧ (∀ id a', step a (EvDelete id) = Some a' →
              history (now_at a') `sublist_of` history (now_at a)
              ∧ created a' = created a).
Proof.
  intros Hreach. split; [|split; [|split]].
  - induction Hreach as [|a e a' _ IH _ Hstep]; [done|].
    by eapply step_keeps_log_order.
  - intros n o rid now a' Hstep. by apply step_history in Hstep.
  - intros i a' Hstep. by apply step_history in Hstep.
  - intros id a' Hstep. by apply step_history in Hstep.
Qed.

Lemma history_in_insertion_order_witness :
  history (now_at (after unrestricted sample_key (two_images ++ [EvDelete (js "m3p9z")])))
    `sublist_of` created (after unrestricted sample_key (two_images ++ [EvDelete (js "m3p9z")])).
Proof.
  apply (history_in_insertion_order sample_key
           (after unrestricted sample_key (two_images ++ [EvDelete (js "m3p9z")]))).
  apply reachable_after.
Defined.

(** C8. In every state the component reaches, under any use of its
    handlers, a selection that is not empty is an entry of the history (so its
    id is present there); every event leads to a state where this holds
    again; and [deleteImage] called with the id of the selected image empties
    the selection. *)
Theorem selection_always_in_history (key : option jsstring) (a : App) :
  reachable unrestricted key a →
  selection_in_history (now_at a)
  ∧ (∀ sel, selectedImage (now_at a) = Some sel →
            ∃ img, img ∈ history (now_at a)
                   ∧ GeneratedImage.id img = GeneratedImage.id sel)
  ∧ (∀ e a', step a e = Some a' → selection_in_history (now_at a'))
  ∧ (∀ sel, selectedImage (now_at a) = Some sel →
            selectedImage (deleteImage_current (GeneratedImage.id sel) (now_at a)) = None).
Proof.
  intros Hreach.
  assert (selection_in_history (now_at a)) as Hinv.
  { induction Hreach as [|a e a' _ IH _ Hstep]; [done|].
    by eapply step_keeps_selection_in_history. }
  split; [done|]. split; [|split].
  - intros sel Hsel. exists sel. split; [by apply Hinv|done].
  - intros e a' Hstep. by eapply step_keeps_selection_in_history.
  - intros sel Hsel. rewrite deleteImage_selection, Hsel. by rewrite decide_True.
Qed.

Lemma selection_always_in_history_witness :
  selection_in_history (now_at (after unrestricted sample_key two_images))
  ∧ selectedImage (now_at (after unrestricted sample_key two_images)) = Some red_circle_image.
Proof.
  split; [|reflexivity].
  apply (selection_always_in_history sample_key (after unrestricted sample_key two_images)).
  apply reachable_after.
Defined.

(** ** The flag and the request in flight *)

Lemma step_other_keeps_flag (a a' : App) (e : Event) :
  step a e = Some a' →
  match e with
  | EvGenerate | EvSettle _ _ _ _ => True
  | _ => isGenerating (now_at a') = isGenerating (now_at a) ∧ pending a' = pending a
  end.
Proof.
  destruct e as [text|i| |n o rid now|i|id|url filename|out]; simpl; try done.
  - by intros [= <-].
  - destruct (ASPECT_RATIOS !! i); simpl; [|done]. by intros [= <-].
  - destruct (history (now_at a) !! i); simpl; [|done]. by intros [= <-].
  - intros [= <-]. split; [|done]. apply deleteImage_frame.
  - by intros [= <-].
  - intros [= <-]. split; [|done]. apply deleteImage_frame.
Qed.


Lemma step_keeps_flag_tracking (a a' : App) (e : Event) :
  one_at_a_time a e = true → step a e = Some a' →
  flag_tracks_request a → flag_tracks_request a'.
Proof.
  intros Hpol Hstep Hinv.
  destruct e as [text|i| |n o rid now|i|id|url filename|out].
  1, 2, 5, 6, 7, 8:
    apply step_other_keeps_flag in Hstep as [Hflag Hpend];
    unfold flag_tracks_request; by rewrite Hflag, Hpend.
  - simpl in Hpol. destruct (pending a) as [|k0 rest] eqn:Hpend; [|done].
    destruct Hinv as [[_ Hflag]|(k & ? & _)]; [|congruence].
    simpl in Hstep.
    pose proof (handleGenerate_flag (aiRef a) (now_at a)) as Hf.
    destruct (handleGenerate _ _) as [s|s req k]; simplify_eq; simpl in Hf.
    + left. unfold now_at. simpl. split; [done|]. by rewrite Hf.
    + right. exists k. unfold now_at. simpl. by rewrite Hpend.
  - simpl in Hstep.
    destruct (pending a !! n) as [k|] eqn:Hn; simpl in Hstep; simplify_eq.
    left. split; [|done]. simpl.
    destruct Hinv as [[Hpend _]|(k' & Hpend & _)]; rewrite Hpend in *; [done|].
    by destruct n.
Qed.




(** The generate button as rendered never starts a second call: whatever the
    rendered triggers reach is reached one call at a time. *)
Lemma rendered_one_at_a_time (key : option jsstring) (a : App) :
  reachable rendered key a → reachable one_at_a_time key a ∧ flag_tracks_request a.
Proof.
  induction 1 as [|a e a' _ [IH Hinv] Hpol Hstep]; [split; [constructor|by left]|].
  assert (one_at_a_time a e = true) as Hone.
  { destruct e; try done. simpl in *. unfold generate_disabled in Hpol.
    destruct Hinv as [[-> _]|(k & _ & Hflag)]; [done|]. by rewrite Hflag in Hpol. }
  split; [by eapply reachable_step|by eapply step_keeps_flag_tracking].
Qed.

(** ** [downloadImage] *)

(** C10, as the source has it. [downloadImage url filename] starts exactly
    one save, of the data at [url], under the name [filename] followed by
    ".png", and calls no setter: [prompt], [aspectRatio], [isGenerating],
    [history], [selectedImage] and [error] are what they were. *)
Theorem downloadImage_saves_and_keeps_session (url filename : jsstring) (w : World) :
  saves (document (downloadImage url filename w))
    = saves (document w) ++ [ {| saved_data := url; saved_as := filename ++ js ".png" |} ]
  ∧ session (downloadImage url filename w) = session w
  ∧ prompt (session (downloadImage url filename w)) = prompt (session w)
  ∧ aspectRatio (session (downloadImage url filename w)) = aspectRatio (session w)
  ∧ isGenerating (session (downloadImage url filename w)) = isGenerating (session w)
  ∧ history (session (downloadImage url filename w)) = history (session w)
  ∧ selectedImage (session (downloadImage url filename w)) = selectedImage (session w)
  ∧ error (session (downloadImage url filename w)) = error (session w).
Proof. done. Qed.

(** C10, as the claim words it, fails on the name: the file is not saved
    under the given filename but under that name with ".png" appended. *)
Lemma downloadImage_appends_extension :
  saved_as <$> saves (document (downloadImage (js "data:image/png;base64,iVBORw0KGgo=")
                                  (js "lumina-x7k2q")
                                  {| session := initialState; document := emptyDocument |}))
    = [js "lumina-x7k2q.png"]
  ∧ js "lumina-x7k2q.png" ≠ js "lumina-x7k2q".
Proof. split; [by vm_compute|]. vm_compute. discriminate. Qed.

(** The anchor is gone from the page afterwards, when the page's nodes were
    numbered below the counter. *)
Lemma downloadImage_restores_body (url filename : jsstring) (w : World) :
  Forall (λ c, (node c < next_node (document w))%nat) (body (document w)) →
  body (document (downloadImage url filename w)) = body (document w).
Proof.
  intros Hfresh. unfold downloadImage. simpl.
  rewrite filter_app, filter_cons_False, filter_nil, app_nil_r by (intros ?; done).
  apply filter_all. eapply Forall_impl; [exact Hfresh|]. simpl. intros c Hc. lia.
Qed.

(** ** Further facts about the component *)

(** The overlay buttons as rendered keep to one call at a time; a run of the
    rendered triggers. *)
Lemma rendered_one_at_a_time_witness :
  reachable one_at_a_time sample_key
    (after rendered sample_key
       (two_images ++ [EvDownload (js "data:image/png;base64,iVBORw0KGgo=") (js "lumina-x7k2q");
                       EvDelete (js "x7k2q")]))
  ∧ history (now_at (after rendered sample_key
       (two_images ++ [EvDownload (js "data:image/png;base64,iVBORw0KGgo=") (js "lumina-x7k2q");
                       EvDelete (js "x7k2q")])))
    = [blue_square_image].
Proof.
  split; [|by vm_compute].
  apply (rendered_one_at_a_time sample_key). apply reachable_after.
Defined.

(** Two answers with the same first candidate settle a call alike. *)
Lemma later_candidates_ignored (c : Candidate) (cs cs' : list Candidate)
    (k : Closure) (random_id : jsstring) (now : Z) (s : State) :
  handleGenerate_resume k (Fulfilled {| candidates := Some (c :: cs) |}) random_id now s
  = handleGenerate_resume k (Fulfilled {| candidates := Some (c :: cs') |}) random_id now s.
Proof. done. Qed.

Lemma downloadImage_restores_body_witness :
  body (document (downloadImage (js "data:image/png;base64,iVBORw0KGgo=") (js "lumina-x7k2q")
                    {| session := initialState;
                       document := {| next_node := 1;
                                      body := [ {| node := 0; tagName := js "div";
                                                   href := None; download := None |} ];
                                      saves := [] |} |}))
  = [ {| node := 0; tagName := js "div"; href := None; download := None |} ].
Proof.
  apply (downloadImage_restores_body _ _
           {| session := initialState;
              document := {| next_node := 1;
                             body := [ {| node := 0; tagName := js "div";
                                          href := None; download := None |} ];
                             saves := [] |} |}).
  repeat constructor.
Defined.

Lemma Forall_sublist_of {A} (P : A → Prop) (l1 l2 : list A) :
  l1 `sublist_of` l2 → Forall P l2 → Forall P l1.
Proof.
  intros Hsub. rewrite !Forall_forall. intros H x Hx.
  apply H. by eapply sublist_subseteq.
Qed.

Lemma resume_aspectRatio (k : Closure) (o : Settled)
    (random_id : jsstring) (now : Z) (s : State) :
  aspectRatio (handleGenerate_resume k o random_id now s) = aspectRatio s.
Proof.
  unfold handleGenerate_resume. destruct o as [response|err]; [|done].
  unfold try_block. by destruct (truthy _).
Qed.

Lemma logged_aspectRatio (k : Closure) (o : Settled)
    (random_id : jsstring) (now : Z) (s : State) :
  Forall (λ img, GeneratedImage.aspectRatio img = closure_aspectRatio k)
    (logged k o random_id now s).
Proof.
  unfold logged. destruct o as [response|err]; [|constructor].
  destruct (try_block _ _ _ _ _); repeat constructor.
Qed.

Lemma step_keeps_ratios_enumerated (a a' : App) (e : Event) :
  step a e = Some a' → ratios_enumerated a → ratios_enumerated a'.
Proof.
  intros Hstep (Hr & Hp & Hh). unfold ratios_enumerated.
  destruct e as [text|i| |n o rid now|i|id|url filename|out]; simpl in Hstep.
  - by simplify_eq.
  - destruct (ASPECT_RATIOS !! i) as [ratio|] eqn:Hi; simpl in Hstep; simplify_eq.
    split; [|done]. unfold now_at. simpl.
    apply list_elem_of_fmap_2. by eapply list_elem_of_lookup_2.
  - unfold handleGenerate in Hstep.
    destruct (negb (truthy (trim (prompt (now_at a))))); [by simplify_eq|].
    destruct (aiRef a); simplify_eq; [|done].
    split; [done|]. split; [|done]. simpl.
    apply Forall_app. split; [done|]. constructor; [exact Hr|constructor].
  - destruct (pending a !! n) as [k|] eqn:Hn; simpl in Hstep; simplify_eq.
    unfold now_at. cbn [world session pending]. fold (now_at a).
    rewrite resume_aspectRatio, resume_history.
    split; [done|]. split; [by apply Forall_delete|].
    apply Forall_app. split; [|done].
    eapply Forall_impl; [apply logged_aspectRatio|]. simpl. intros img ->.
    by apply (proj1 (Forall_lookup _ _) Hp n k).
  - destruct (history (now_at a) !! i); simpl in Hstep; by simplify_eq.
  - simplify_eq. unfold now_at. cbn [world session pending with_session]. fold (now_at a).
    destruct (deleteImage_frame (selectedImage (now_at a)) id (now_at a)) as (_ & _ & -> & _).
    split; [done|]. split; [done|].
    eapply Forall_sublist_of; [apply deleteImage_sublist|done].
  - by simplify_eq.
  - simplify_eq. unfold now_at. cbn [world session pending with_session]. fold (now_at a).
    destruct (deleteImage_frame (Some out) (GeneratedImage.id out) (now_at a))
      as (_ & _ & -> & _).
    split; [done|]. split; [done|].
    eapply Forall_sublist_of; [apply deleteImage_sublist|done].
Qed.

(** The aspect ratio in the state, in every suspended call and on every image
    of the history is one of the five enumerated values, under any use of
    the handlers. *)
Lemma aspectRatio_enumerated (key : option jsstring) (a : App) :
  reachable unrestricted key a → ratios_enumerated a.
Proof.
  induction 1 as [|a e a' _ IH _ Hstep].
  - split; [|by split]. unfold enumerated. vm_compute. left.
  - by eapply step_keeps_ratios_enumerated.
Qed.

Lemma aspectRatio_enumerated_witness :
  ratios_enumerated (after unrestricted sample_key two_images)
  ∧ aspectRatio (now_at (after unrestricted sample_key two_images)) = js "16:9".
Proof.
  split; [|by vm_compute].
  apply (aspectRatio_enumerated sample_key). apply reachable_after.
Defined.

(** ** Invariants under any use of the handlers *)

Lemma reachable_invariant (P : policy) (key : option jsstring) (I : App → Prop) :
  I (mount key) →
  (∀ a e a', I a → P a e = true → step a e = Some a' → I a') →
  ∀ a, reachable P key a → I a.
Proof.
  intros Hmount Hstep a. induction 1 as [|a e a' _ IH Hpol Hs]; eauto.
Qed.

Lemma reachable_selection_in_history (P : policy) (key : option jsstring) (a : App) :
  reachable P key a → selection_in_history (now_at a).
Proof.
  apply (reachable_invariant P key (λ a, selection_in_history (now_at a))); [done|].
  intros ? e ? ? _ ?. by eapply step_keeps_selection_in_history.
Qed.

Lemma reachable_log_order (P : policy) (key : option jsstring) (a : App) :
  reachable P key a → history (now_at a) `sublist_of` created a.
Proof.
  apply (reachable_invariant P key (λ a, history (now_at a) `sublist_of` created a)); [done|].
  intros ? e ? ? _ ?. by eapply step_keeps_log_order.
Qed.

Lemma rendered_allows_one_at_a_time (a : App) (e : Event) :
  flag_tracks_request a → rendered a e = true → one_at_a_time a e = true.
Proof.
  intros Hinv Hpol. destruct e; try done. simpl in *. unfold generate_disabled in Hpol.
  destruct Hinv as [[-> _]|(k & _ & Hflag)]; [done|]. by rewrite Hflag in Hpol.
Qed.

Lemma reachable_rendered_flag (key : option jsstring) (a : App) :
  reachable rendered key a → flag_tracks_request a.
Proof.
  apply (reachable_invariant rendered key flag_tracks_request); [by left|].
  intros ? e ? Hinv Hpol Hstep.
  eapply step_keeps_flag_tracking; [|done..]. by apply rendered_allows_one_at_a_time.
Qed.

Lemma step_aiRef (a a' : App) (e : Event) : step a e = Some a' → aiRef a' = aiRef a.
Proof.
  destruct e as [text|i| |n o rid now|i|id|url filename|out]; simpl.
  - by intros [= <-].
  - destruct (ASPECT_RATIOS !! i); simpl; [|done]. by intros [= <-].
  - destruct (handleGenerate _ _); by intros [= <-].
  - destruct (pending a !! n); simpl; [|done]. by intros [= <-].
  - destruct (history (now_at a) !! i); simpl; [|done]. by intros [= <-].
  - by intros [= <-].
  - by intros [= <-].
  - by intros [= <-].
Qed.

Lemma reachable_aiRef (P : policy) (key : option jsstring) (a : App) :
  reachable P key a → aiRef a = useEffect_init key.
Proof.
  apply (reachable_invariant P key (λ a, aiRef a = useEffect_init key)); [done|].
  intros ? e ? IH _ Hstep. by rewrite (step_aiRef _ _ _ Hstep).
Qed.

(** Events other than a call of [handleGenerate] and the settling of a
    request leave [error] alone. *)
Lemma step_other_keeps_error (a a' : App) (e : Event) :
  step a e = Some a' →
  match e with
  | EvGenerate | EvSettle _ _ _ _ => True
  | _ => error (now_at a') = error (now_at a)
  end.
Proof.
  destruct e as [text|i| |n o rid now|i|id|url filename|out]; simpl; try done.
  - by intros [= <-].
  - destruct (ASPECT_RATIOS !! i); simpl; [|done]. by intros [= <-].
  - destruct (history (now_at a) !! i); simpl; [|done]. by intros [= <-].
  - intros [= <-]. apply deleteImage_frame.
  - by intros [= <-].
  - intros [= <-]. apply deleteImage_frame.
Qed.

Lemma step_document (a a' : App) (e : Event) :
  step a e = Some a' →
  match e with
  | EvDownload url filename =>
      document (world a') = document (downloadImage url filename (world a))
  | _ => document (world a') = document (world a)
  end.
Proof.
  destruct e as [text|i| |n o rid now|i|id|url filename|out]; simpl.
  - by intros [= <-].
  - destruct (ASPECT_RATIOS !! i); simpl; [|done]. by intros [= <-].
  - destruct (handleGenerate _ _); by intros [= <-].
  - destruct (pending a !! n); simpl; [|done]. by intros [= <-].
  - destruct (history (now_at a) !! i); simpl; [|done]. by intros [= <-].
  - by intros [= <-].
  - by intros [= <-].
  - by intros [= <-].
Qed.

Lemma step_created_grows (a a' : App) (e : Event) :
  step a e = Some a' → ∃ new, created a' = new ++ created a.
Proof.
  intros Hstep. apply step_history in Hstep.
  destruct e; try (exists []; by destruct Hstep as [_ ->]).
  destruct Hstep as (new & _ & _ & ->). by exists new.
Qed.

(** *** The error box *)

Lemma or_else_truthy (a : option jsstring) (b : jsstring) :
  truthy b = true → truthy (or_else a b) = true.
Proof.
  intros Hb. destruct a as [m|]; simpl; [|done].
  by destruct (truthy m) eqn:Hm.
Qed.

Lemma handleGenerate_error_shown (ai : option GoogleGenAI) (s : State) :
  error_shown_when_set s → error_shown_when_set (state_of (handleGenerate ai s)).
Proof.
  intros Hs. unfold handleGenerate.
  destruct (negb (truthy (trim (prompt s)))); [done|].
  destruct ai; simpl; intros m [= <-]; done.
Qed.

Lemma resume_error_shown (k : Closure) (o : Settled)
    (random_id : jsstring) (now : Z) (s : State) :
  error_shown_when_set s →
  error_shown_when_set (handleGenerate_resume k o random_id now s).
Proof.
  intros Hs m. unfold handleGenerate_resume.
  destruct o as [response|err]; simpl.
  - unfold try_block. destruct (truthy _); simpl; [apply Hs|].
    by intros [= <-].
  - intros [= <-]. by apply or_else_truthy.
Qed.

Lemma step_keeps_error_shown (a a' : App) (e : Event) :
  step a e = Some a' →
  error_shown_when_set (now_at a) → error_shown_when_set (now_at a').
Proof.
  intros Hstep Hinv.
  destruct e as [text|i| |n o rid now|i|id|url filename|out];
    try (apply step_other_keeps_error in Hstep;
         unfold error_shown_when_set; by rewrite Hstep).
  - simpl in Hstep.
    pose proof (handleGenerate_error_shown (aiRef a) (now_at a) Hinv) as H.
    destruct (handleGenerate _ _); by simplify_eq.
  - simpl in Hstep. destruct (pending a !! n) as [k|]; simpl in Hstep; simplify_eq.
    by apply resume_error_shown.
Qed.

(** Whenever [error] is set it holds a non-empty string, so the red box is on
    the page exactly when [error] is not [null], and it shows that string. *)
Theorem error_banner_shows_error (key : option jsstring) (a : App) :
  reachable unrestricted key a →
  error_banner (now_at a) = error (now_at a).
Proof.
  intros Hreach.
  assert (error_shown_when_set (now_at a)) as Hinv.
  { revert a Hreach.
    apply (reachable_invariant _ key (λ a, error_shown_when_set (now_at a))); [done|].
    intros ? e ? ? _ ?. by eapply step_keeps_error_shown. }
  unfold error_banner. destruct (error (now_at a)) as [m|] eqn:Hm; [|done].
  by rewrite (Hinv m).
Qed.

Lemma error_banner_shows_error_witness :
  error_banner (now_at (after unrestricted sample_key overlapping))
  = error (now_at (after unrestricted sample_key overlapping))
  ∧ error (now_at (after unrestricted sample_key overlapping)) = Some (js "rate limited").
Proof.
  split; [|by vm_compute].
  apply (error_banner_shows_error sample_key). apply reachable_after.
Defined.

(** *** Urls and prompts of the images *)

Lemma imageUrl_of_png_data_uri (ps : list Part) :
  truthy (imageUrl_of ps) = true → png_data_uri (imageUrl_of ps).
Proof.
  induction ps as [|p ps IH]; simpl; [done|].
  destruct (inlineData p) as [b|]; [|done].
  intros _. by eexists.
Qed.

Lemma logged_well_formed (k : Closure) (o : Settled)
    (random_id : jsstring) (now : Z) (s : State) :
  trim (closure_prompt k) ≠ [] →
  Forall image_well_formed (logged k o random_id now s).
Proof.
  intros Hk. unfold logged. destruct o as [response|err]; [|constructor].
  unfold try_block.
  destruct (truthy (imageUrl_of (content_parts response))) eqn:Hurl; [|constructor].
  constructor; [|constructor]. split; [|done].
  by apply imageUrl_of_png_data_uri.
Qed.

Lemma step_keeps_images_well_formed (a a' : App) (e : Event) :
  step a e = Some a' → images_well_formed a → images_well_formed a'.
Proof.
  intros Hstep [Hp Hc]. unfold images_well_formed.
  destruct e as [text|i| |n o rid now|i|id|url filename|out];
    try (pose proof (step_other_keeps_flag _ _ _ Hstep) as [_ Hpend];
         pose proof (step_history _ _ _ Hstep) as [_ Hcreated];
         by rewrite Hpend, Hcreated).
  - simpl in Hstep. unfold handleGenerate in Hstep.
    destruct (truthy (trim (prompt (now_at a)))) eqn:Hprompt; simpl in Hstep;
      [|by simplify_eq].
    destruct (aiRef a); simplify_eq; [|done]. simpl. split; [|done].
    apply Forall_app. split; [done|]. constructor; [|constructor]. simpl.
    by apply truthy_trim_true.
  - simpl in Hstep. destruct (pending a !! n) as [k|] eqn:Hn; simpl in Hstep; simplify_eq.
    simpl. split; [by apply Forall_delete|].
    apply Forall_app. split; [|done]. apply logged_well_formed.
    by apply (proj1 (Forall_lookup _ _) Hp n k).
Qed.

Lemma reachable_images_well_formed (P : policy) (key : option jsstring) (a : App) :
  reachable P key a → images_well_formed a.
Proof.
  apply (reachable_invariant P key images_well_formed); [by split|].
  intros ? e ? ? _ ?. by eapply step_keeps_images_well_formed.
Qed.

(** Every entry of the history, and the selected image, has a [url] that is
    the PNG data-URI prefix followed by a payload, and a prompt that is
    non-empty after trimming. *)
Theorem history_images_well_formed (key : option jsstring) (a : App) :
  reachable unrestricted key a →
  Forall image_well_formed (history (now_at a))
  ∧ ∀ sel, selectedImage (now_at a) = Some sel → image_well_formed sel.
Proof.
  intros Hreach.
  assert (Forall image_well_formed (history (now_at a))) as Hh.
  { eapply Forall_sublist_of; [by eapply reachable_log_order|].
    by eapply reachable_images_well_formed. }
  split; [done|]. intros sel Hsel.
  apply (proj1 (Forall_forall _ _) Hh).
  by apply (reachable_selection_in_history _ _ _ Hreach).
Qed.

Lemma history_images_well_formed_witness :
  Forall image_well_formed (history (now_at (after unrestricted sample_key two_images)))
  ∧ history (now_at (after unrestricted sample_key two_images))
    = [blue_square_image; red_circle_image].
Proof.
  split; [|by vm_compute].
  apply (history_images_well_formed sample_key). apply reachable_after.
Defined.

(** *** Without a key *)

Lemma useEffect_init_None (key : option jsstring) :
  useEffect_init key = None ↔ key = None ∨ key = Some [].
Proof.
  destruct key as [[|c k]|]; simpl; split; try done; auto.
  - by intros [|].
Qed.

Lemma step_keeps_idle_and_empty (a a' : App) (e : Event) :
  aiRef a = None → step a e = Some a' → idle_and_empty a → idle_and_empty a'.
Proof.
  intros Hai Hstep (Hp & Hc & Hh & Hs & Hg & He). unfold idle_and_empty.
  destruct e as [text|i| |n o rid now|i|id|url filename|out]; simpl in Hstep.
  - by simplify_eq.
  - destruct (ASPECT_RATIOS !! i); simpl in Hstep; by simplify_eq.
  - rewrite Hai in Hstep. unfold handleGenerate in Hstep.
    destruct (negb (truthy (trim (prompt (now_at a))))); simplify_eq; [done|].
    unfold now_at. simpl. fold (now_at a). by repeat split; auto.
  - rewrite Hp in Hstep. done.
  - rewrite Hh in Hstep. done.
  - simplify_eq. unfold now_at. cbn [world session with_session pending created].
    fold (now_at a).
    destruct (deleteImage_frame (selectedImage (now_at a)) id (now_at a))
      as (_ & -> & _ & ->).
    rewrite deleteImage_history, deleteImage_selection, Hh, Hs. done.
  - by simplify_eq.
  - simplify_eq. unfold now_at. cbn [world session with_session pending created].
    fold (now_at a).
    destruct (deleteImage_frame (Some out) (GeneratedImage.id out) (now_at a))
      as (_ & -> & _ & ->).
    rewrite deleteImage_history, deleteImage_outgoing_selection, Hh. done.
Qed.

(** When [GEMINI_API_KEY] is unset or empty, no sequence of events ever gets
    a request out or an image in: nothing is pending, the history and the
    selection stay empty, [isGenerating] stays false, and [error] is either
    untouched or the configuration message. *)
Theorem without_key_nothing_is_generated (key : option jsstring) (a : App) :
  key = None ∨ key = Some [] →
  reachable unrestricted key a →
  idle_and_empty a.
Proof.
  intros Hkey%useEffect_init_None. revert a.
  apply (reachable_invariant unrestricted key
           (λ a, aiRef a = None ∧ idle_and_empty a)).
  - split; [done|]. unfold idle_and_empty. simpl. by repeat split; auto.
  - intros a e a' [Hai Hidle] _ Hstep. split.
    + by rewrite (step_aiRef _ _ _ Hstep).
    + by eapply step_keeps_idle_and_empty.
Qed.

Lemma without_key_nothing_is_generated_witness :
  idle_and_empty
    (after unrestricted (Some [])
       [EvSetPrompt (js "a red circle"); EvGenerate; EvDelete (js "x7k2q")])
  ∧ error (now_at (after unrestricted (Some [])
             [EvSetPrompt (js "a red circle"); EvGenerate; EvDelete (js "x7k2q")]))
    = Some (js "API Key not found. Please check your environment variables.").
Proof.
  split; [|by vm_compute].
  apply (without_key_nothing_is_generated (Some [])); [by right|]. apply reachable_after.
Defined.

(** *** No stale error while a request is in flight *)

Lemma step_keeps_quiet_in_flight (a a' : App) (e : Event) :
  one_at_a_time a e = true → step a e = Some a' →
  flag_tracks_request a → quiet_in_flight a → quiet_in_flight a'.
Proof.
  intros Hpol Hstep Hflag Hq. unfold quiet_in_flight.
  destruct e as [text|i| |n o rid now|i|id|url filename|out];
    try (pose proof (step_other_keeps_flag _ _ _ Hstep) as [_ Hpend];
         pose proof (step_other_keeps_error _ _ _ Hstep) as Herr;
         simpl in Herr; by rewrite Hpend, Herr).
  - simpl in Hstep. unfold handleGenerate in Hstep. simpl in Hpol.
    destruct (pending a) eqn:Hp; [|done].
    destruct (negb (truthy (trim (prompt (now_at a))))); simplify_eq.
    + simpl. by rewrite Hp.
    + destruct (aiRef a); simplify_eq; [done|]. simpl. by rewrite Hp.
  - assert (pending a' = []) as ->; [|done].
    destruct (step_keeps_flag_tracking a a' _ Hpol Hstep Hflag)
      as [[Hp' _]|(k & _ & Hf)]; [done|].
    simpl in Hstep. destruct (pending a !! n); simpl in Hstep; by simplify_eq.
Qed.

(** As long as [handleGenerate] is called one call at a time, no error is
    stored while [isGenerating] is true, and a request that is answered with
    an inline image leaves [error] empty: the red box is gone after a
    generation that worked. *)
Theorem no_error_after_success (key : option jsstring) (a : App) :
  reachable one_at_a_time key a →
  (isGenerating (now_at a) = true → error (now_at a) = None)
  ∧ (∀ n response random_id now a',
       step a (EvSettle n (Fulfilled response) random_id now) = Some a' →
       Exists has_inlineData (content_parts response) →
       error (now_at a') = None ∧ error_banner (now_at a') = None).
Proof.
  intros Hreach.
  assert (flag_tracks_request a ∧ quiet_in_flight a) as [Hflag Hq].
  { revert a Hreach.
    apply (reachable_invariant one_at_a_time key
             (λ a, flag_tracks_request a ∧ quiet_in_flight a)).
    - split; [by left|done].
    - intros a e a' [Hf Hq] Hpol Hstep. split.
      + by eapply step_keeps_flag_tracking.
      + by eapply step_keeps_quiet_in_flight. }
  split.
  - intros Hgen. apply Hq. destruct Hflag as [[_ Hf]|(k & -> & _)]; [congruence|done].
  - intros n response rid now a' Hstep Hparts. simpl in Hstep.
    destruct (pending a !! n) as [k|] eqn:Hn; simpl in Hstep; simplify_eq.
    unfold error_banner, now_at. cbn [world session]. fold (now_at a).
    rewrite (resume_success _ _ _ _ _ Hparts). simpl.
    rewrite Hq; [done|]. intros Hp. by rewrite Hp in Hn.
Qed.

Lemma no_error_after_success_witness :
  error (now_at (after one_at_a_time sample_key
                   [ EvSetPrompt (js "a red circle"); EvGenerate;
                     EvSettle 0 (Rejected rate_limited) (js "x7k2q") 1700000000000%Z ]))
    = Some (js "rate limited")
  ∧ error (now_at (after one_at_a_time sample_key
                     [ EvSetPrompt (js "a red circle"); EvGenerate;
                       EvSettle 0 (Rejected rate_limited) (js "x7k2q") 1700000000000%Z;
                       EvGenerate;
                       EvSettle 0 (Fulfilled one_png) (js "m3p9z") 1700000005000%Z ]))
    = None.
Proof.
  split; [by vm_compute|].
  apply (proj2 (no_error_after_success sample_key
                  (after one_at_a_time sample_key
                     [ EvSetPrompt (js "a red circle"); EvGenerate;
                       EvSettle 0 (Rejected rate_limited) (js "x7k2q") 1700000000000%Z;
                       EvGenerate ])
                  (reachable_after _ _ _))
           0%nat one_png (js "m3p9z") 1700000005000%Z
           (after one_at_a_time sample_key
              [ EvSetPrompt (js "a red circle"); EvGenerate;
                EvSettle 0 (Rejected rate_limited) (js "x7k2q") 1700000000000%Z;
                EvGenerate;
                EvSettle 0 (Fulfilled one_png) (js "m3p9z") 1700000005000%Z ])
           eq_refl).
  left. by eexists.
Defined.

(** *** [deleteImage] composed with itself and with a generation *)

(** Deleting the same id twice is deleting it once, and two deletions can be
    done in either order; this holds when each call comes from the render of
    the state it acts on, and also when both calls come from one render and
    share what it captured. *)
Theorem deleteImage_idempotent_and_commutes (id1 id2 : jsstring) (s : State) :
  deleteImage_current id1 (deleteImage_current id1 s) = deleteImage_current id1 s
  ∧ deleteImage_current id1 (deleteImage_current id2 s)
    = deleteImage_current id2 (deleteImage_current id1 s)
  ∧ ∀ captured,
      deleteImage captured id1 (deleteImage captured id1 s) = deleteImage captured id1 s
      ∧ deleteImage captured id1 (deleteImage captured id2 s)
        = deleteImage captured id2 (deleteImage captured id1 s).
Proof.
  assert (∀ c c' ida idb t,
            prompt (deleteImage c ida (deleteImage c' idb t)) = prompt t
            ∧ isGenerating (deleteImage c ida (deleteImage c' idb t)) = isGenerating t
            ∧ aspectRatio (deleteImage c ida (deleteImage c' idb t)) = aspectRatio t
            ∧ error (deleteImage c ida (deleteImage c' idb t)) = error t) as Hframe.
  { intros c c' ida idb t.
    destruct (deleteImage_frame c ida (deleteImage c' idb t)) as (-> & -> & -> & ->).
    apply deleteImage_frame. }
  split; [|split; [|intros captured; split]].
  - destruct (Hframe (selectedImage (deleteImage_current id1 s)) (selectedImage s) id1 id1 s)
      as (Hp & Hg & Ha & He).
    destruct (deleteImage_frame (selectedImage s) id1 s) as (Hp' & Hg' & Ha' & He').
    apply State_eq; try congruence.
    + rewrite !deleteImage_history, list_filter_filter.
      apply list_filter_iff. intros img. tauto.
    + rewrite !deleteImage_selection.
      destruct (selectedImage s) as [sel|]; [|done].
      destruct (decide (GeneratedImage.id sel = id1)) as [|Hne]; [done|].
      by rewrite decide_False.
  - destruct (Hframe (selectedImage (deleteImage_current id2 s)) (selectedImage s) id1 id2 s)
      as (Hp1 & Hg1 & Ha1 & He1).
    destruct (Hframe (selectedImage (deleteImage_current id1 s)) (selectedImage s) id2 id1 s)
      as (Hp2 & Hg2 & Ha2 & He2).
    apply State_eq; try congruence.
    + rewrite !deleteImage_history, !list_filter_filter.
      apply list_filter_iff. intros img. tauto.
    + rewrite !deleteImage_selection.
      destruct (selectedImage s) as [sel|]; [|done].
      destruct (decide (GeneratedImage.id sel = id1)) as [H1|H1],
               (decide (GeneratedImage.id sel = id2)) as [H2|H2];
        simpl; rewrite ?decide_True, ?decide_False by done; done.
  - destruct (Hframe captured captured id1 id1 s) as (Hp & Hg & Ha & He).
    destruct (deleteImage_frame captured id1 s) as (Hp' & Hg' & Ha' & He').
    apply State_eq; try congruence.
    + rewrite !deleteImage_history, list_filter_filter.
      apply list_filter_iff. intros img. tauto.
    + rewrite !deleteImage_selection_captured.
      destruct captured as [sel|]; [|done]. by destruct (decide _).
  - destruct (Hframe captured captured id1 id2 s) as (Hp1 & Hg1 & Ha1 & He1).
    destruct (Hframe captured captured id2 id1 s) as (Hp2 & Hg2 & Ha2 & He2).
    apply State_eq; try congruence.
    + rewrite !deleteImage_history, !list_filter_filter.
      apply list_filter_iff. intros img. tauto.
    + rewrite !deleteImage_selection_captured.
      destruct captured as [sel|]; [|done].
      by destruct (decide (GeneratedImage.id sel = id1)),
                  (decide (GeneratedImage.id sel = id2)).
Qed.

(** Deleting the image a generation has just added, by its id, empties the
    selection and leaves the history the generation found, less whatever
    entries already carried that id; with a fresh id the history is exactly
    the one found. *)
Theorem generate_then_delete (k : Closure) (response : GenerateContentResponse)
    (random_id : jsstring) (now : Z) (live : State) :
  Exists has_inlineData (content_parts response) →
  history (deleteImage_current random_id
             (handleGenerate_resume k (Fulfilled response) random_id now live))
    = filter (λ img, GeneratedImage.id img ≠ random_id) (history live)
  ∧ selectedImage (deleteImage_current random_id
                     (handleGenerate_resume k (Fulfilled response) random_id now live))
    = None
  ∧ (Forall (λ img, GeneratedImage.id img ≠ random_id) (history live) →
     history (deleteImage_current random_id
                (handleGenerate_resume k (Fulfilled response) random_id now live))
       = history live).
Proof.
  intros Hparts.
  rewrite deleteImage_history, deleteImage_selection, (resume_success _ _ _ _ _ Hparts).
  simpl. rewrite filter_cons_False by (intros ?; done).
  split; [done|]. split; [by rewrite decide_True|]. apply filter_all.
Qed.

Lemma generate_then_delete_witness :
  history (deleteImage_current (js "m3p9z")
             (handleGenerate_resume red_circle_closure (Fulfilled one_png) (js "m3p9z")
                1700000009000%Z (now_at (after unrestricted sample_key two_images))))
  = [red_circle_image].
Proof.
  destruct (generate_then_delete red_circle_closure one_png (js "m3p9z") 1700000009000%Z
              (now_at (after unrestricted sample_key two_images))) as (H & _ & _).
  - left. by eexists.
  - rewrite H. by vm_compute.
Defined.

(** ** The triggers as rendered *)

Lemma step_keeps_saves_are_images (a a' : App) (e : Event) :
  rendered a e = true → step a e = Some a' →
  selection_in_history (now_at a) →
  history (now_at a) `sublist_of` created a →
  saves_are_images a → saves_are_images a'.
Proof.
  intros Hpol Hstep Hsel Hlog Hsaves. unfold saves_are_images.
  destruct (step_created_grows _ _ _ Hstep) as [new Hcreated].
  assert (Forall (λ f, ∃ img, img ∈ created a'
                        ∧ saved_data f = GeneratedImage.url img
                        ∧ saved_as f = js "lumina-" ++ GeneratedImage.id img ++ js ".png")
            (saves (document (world a)))) as Hold.
  { eapply Forall_impl; [exact Hsaves|]. simpl. intros f (img & Himg & Hf).
    exists img. split; [|done]. rewrite Hcreated. apply elem_of_app. by right. }
  pose proof (step_document _ _ _ Hstep) as Hdoc.
  destruct e as [text|i| |n o rid now|i|id|url filename|out]; try by rewrite Hdoc.
  rewrite Hdoc. simpl. apply Forall_app. split; [done|].
  constructor; [|constructor]. simpl in Hpol.
  destruct (selectedImage (now_at a)) as [sel|] eqn:Hs; [|done].
  apply bool_decide_eq_true in Hpol as [-> ->].
  exists sel. split; [|split; reflexivity].
  rewrite Hcreated. apply elem_of_app. right.
  eapply sublist_subseteq; [exact Hlog|]. by apply Hsel.
Qed.

(** Under the triggers as rendered, every file the page has saved is an
    image that was generated in this session: its data is that image's [url],
    a PNG data URI, and its name is [lumina-<id>.png] for that image's id. *)
Theorem downloads_are_generated_images (key : option jsstring) (a : App) :
  reachable rendered key a →
  saves_are_images a
  ∧ Forall (λ f, png_data_uri (saved_data f)) (saves (document (world a))).
Proof.
  intros Hreach.
  assert (saves_are_images a) as Hsaves.
  { revert a Hreach.
    apply (reachable_invariant rendered key
             (λ a, reachable rendered key a ∧ saves_are_images a)).
    - split; [constructor|constructor].
    - intros a e a' [Hr Hs] Hpol Hstep. split; [by eapply reachable_step|].
      eapply step_keeps_saves_are_images; eauto using
        reachable_selection_in_history, reachable_log_order. }
  split; [done|].
  eapply Forall_impl; [exact Hsaves|]. simpl. intros f (img & Himg & -> & _).
  destruct (reachable_images_well_formed _ _ _ Hreach) as [_ Hc].
  by apply (proj1 (Forall_forall _ _) Hc img Himg).
Qed.

Lemma downloads_are_generated_images_witness :
  saves_are_images
    (after rendered sample_key
       (two_images
        ++ [EvDownload (js "data:image/png;base64,iVBORw0KGgo=") (js "lumina-x7k2q")]))
  ∧ saved_as <$> saves (document (world
       (after rendered sample_key
          (two_images
           ++ [EvDownload (js "data:image/png;base64,iVBORw0KGgo=") (js "lumina-x7k2q")]))))
    = [js "lumina-x7k2q.png"].
Proof.
  split; [|by vm_compute].
  apply (downloads_are_generated_images sample_key). apply reachable_after.
Defined.

(** Under the triggers as rendered, a click that the generate button lets
    through is never swallowed by the blank-prompt guard of [handleGenerate]:
    with a client it issues exactly one request, carrying the prompt and the
    ratio on the page, raises [isGenerating] and clears [error]; without a
    client it stores the configuration message and no request goes out. *)
Theorem rendered_click_is_never_swallowed (key : option jsstring) (a : App) :
  reachable rendered key a →
  rendered a EvGenerate = true →
  ∃ a', step a EvGenerate = Some a'
        ∧ match aiRef a with
          | Some _ =>
              pending a' = [ {| closure_prompt := prompt (now_at a);
                                closure_aspectRatio := aspectRatio (now_at a) |} ]
              ∧ isGenerating (now_at a') = true
              ∧ error (now_at a') = None
          | None =>
              pending a' = []
              ∧ isGenerating (now_at a') = false
              ∧ error (now_at a')
                = Some (js "API Key not found. Please check your environment variables.")
          end.
Proof.
  intros Hreach Hpol. simpl in Hpol. unfold generate_disabled in Hpol.
  destruct (isGenerating (now_at a)) eqn:Hgen; [done|].
  destruct (truthy (trim (prompt (now_at a)))) eqn:Hprompt; [|done].
  assert (pending a = []) as Hpend.
  { destruct (reachable_rendered_flag _ _ Hreach) as [[? _]|(k & _ & ?)]; [done|congruence]. }
  simpl. unfold handleGenerate. rewrite Hprompt. simpl.
  destruct (aiRef a) as [client|]; eexists; (split; [done|]).
  - unfold now_at. simpl. by rewrite Hpend.
  - unfold now_at in *. simpl. by rewrite Hpend, Hgen.
Qed.

Lemma rendered_click_is_never_swallowed_witness :
  ∃ a', step (after rendered sample_key [EvSetPrompt (js "  a red circle ")]) EvGenerate
        = Some a'
        ∧ pending a' = [ {| closure_prompt := js "  a red circle ";
                            closure_aspectRatio := js "1:1" |} ]
        ∧ isGenerating (now_at a') = true
        ∧ error (now_at a') = None.
Proof.
  apply (rendered_click_is_never_swallowed sample_key
           (after rendered sample_key [EvSetPrompt (js "  a red circle ")])).
  - apply reachable_after.
  - by vm_compute.
Defined.

(** ** What is on the page *)

Lemma reachable_ratios_enumerated (P : policy) (key : option jsstring) (a : App) :
  reachable P key a → ratios_enumerated a.
Proof.
  apply (reachable_invariant P key ratios_enumerated).
  - split; [|by split]. unfold enumerated. vm_compute. left.
  - intros ? e ? ? _ ?. by eapply step_keeps_ratios_enumerated.
Qed.

(** Exactly one of the five ratio buttons is drawn as active, whatever has
    happened. *)
Theorem one_ratio_button_active (key : option jsstring) (a : App) :
  reachable unrestricted key a →
  length (filter (λ ratio, ratio_active (now_at a) ratio = true) ASPECT_RATIOS) = 1%nat.
Proof.
  intros Hreach.
  destruct (reachable_ratios_enumerated _ _ _ Hreach) as [Hr _].
  unfold enumerated in Hr. unfold ratio_active.
  generalize dependent (aspectRatio (now_at a)). intros r Hr.
  apply list_elem_of_fmap in Hr as (ratio & -> & Hratio).
  unfold ASPECT_RATIOS in Hratio.
  repeat (apply elem_of_cons in Hratio as [->|Hratio]; [by vm_compute|]).
  by apply elem_of_nil in Hratio.
Qed.

Lemma one_ratio_button_active_witness :
  length (filter (λ ratio,
            ratio_active (now_at (after unrestricted sample_key two_images)) ratio = true)
          ASPECT_RATIOS) = 1%nat
  ∧ ratio_active (now_at (after unrestricted sample_key two_images))
      {| label := js "16:9"; value := js "16:9"; icon := js "Monitor" |} = true.
Proof.
  split; [|by vm_compute].
  apply (one_ratio_button_active sample_key). apply reachable_after.
Defined.

(** When the main preview shows an image, the gallery is on the page and the
    image is one of its thumbnails, drawn with the selection border. *)
Theorem preview_is_marked_thumbnail (key : option jsstring) (a : App) :
  reachable unrestricted key a →
  ∀ src alt badge,
    preview (now_at a) = PreviewImage src alt badge →
    ∃ thumbs t,
      gallery (now_at a) = Some thumbs
      ∧ t ∈ thumbs
      ∧ thumb_src t = src
      ∧ thumb_marked t = true.
Proof.
  intros Hreach src alt badge Hprev.
  pose proof (reachable_selection_in_history _ _ _ Hreach) as Hsel.
  unfold preview in Hprev.
  destruct (selectedImage (now_at a)) as [sel|] eqn:Hs;
    [|by destruct (isGenerating (now_at a))].
  injection Hprev as <- _ _.
  pose proof (Hsel sel Hs) as Hin.
  exists (thumbnail_of (now_at a) <$> history (now_at a)), (thumbnail_of (now_at a) sel).
  split; [|split; [|split]].
  - unfold gallery. rewrite bool_decide_eq_true_2; [done|].
    destruct (history (now_at a)); [by apply elem_of_nil in Hin|simpl; lia].
  - by apply list_elem_of_fmap_2.
  - done.
  - simpl. unfold thumbnail_marked. rewrite Hs. by apply bool_decide_eq_true_2.
Qed.

Lemma preview_is_marked_thumbnail_witness :
  ∃ thumbs t,
    gallery (now_at (after unrestricted sample_key two_images)) = Some thumbs
    ∧ t ∈ thumbs
    ∧ thumb_src t = GeneratedImage.url red_circle_image
    ∧ thumb_marked t = true.
Proof.
  apply (preview_is_marked_thumbnail sample_key
           (after unrestricted sample_key two_images) (reachable_after _ _ _)
           (GeneratedImage.url red_circle_image)
           (GeneratedImage.prompt red_circle_image)
           (GeneratedImage.prompt red_circle_image)).
  by vm_compute.
Defined.

Lemma filter_none_of {A} (P : A → Prop) `{!∀ x, Decision (P x)} (l : list A) :
  Forall (λ x, ¬ P x) l → filter P l = [].
Proof.
  induction 1 as [|x l Hx _ IH]; [done|]. by rewrite filter_cons_False.
Qed.

Lemma one_with_key {A B} `{EqDecision B} (f : A → B) (l : list A) (x : A) :
  NoDup (f <$> l) → x ∈ l →
  length (filter (λ y, f x = f y) l) = 1%nat.
Proof.
  induction l as [|y l IH]; intros Hnd Hx; [by apply elem_of_nil in Hx|].
  rewrite fmap_cons in Hnd. apply NoDup_cons in Hnd as [Hy Hnd].
  apply elem_of_cons in Hx as [->|Hx].
  - rewrite filter_cons_True by done. simpl. f_equal.
    rewrite filter_none_of; [done|].
    apply Forall_forall. intros z Hz Heq. apply Hy. rewrite Heq.
    by apply list_elem_of_fmap_2.
  - rewrite filter_cons_False; [by apply IH|].
    intros Heq. apply Hy. rewrite <- Heq. by apply list_elem_of_fmap_2.
Qed.

(** With a selection, and no two entries of the history sharing an id,
    exactly one thumbnail is drawn with the selection border. *)
Theorem one_thumbnail_marked (s : State) (sel : GeneratedImage) :
  selection_in_history s →
  selectedImage s = Some sel →
  NoDup (GeneratedImage.id <$> history s) →
  length (filter (λ img, thumbnail_marked s img = true) (history s)) = 1%nat.
Proof.
  intros Hinv Hsel Hnd.
  rewrite <- (one_with_key GeneratedImage.id (history s) sel Hnd (Hinv sel Hsel)).
  f_equal. apply list_filter_iff. intros img. unfold thumbnail_marked. rewrite Hsel.
  apply bool_decide_eq_true.
Qed.

Lemma one_thumbnail_marked_witness :
  length (filter (λ img,
            thumbnail_marked (now_at (after unrestricted sample_key two_images)) img = true)
          (history (now_at (after unrestricted sample_key two_images)))) = 1%nat.
Proof.
  apply (one_thumbnail_marked (now_at (after unrestricted sample_key two_images))
           red_circle_image).
  - intros img [= <-]. vm_compute. right. left.
  - reflexivity.
  - vm_compute. repeat constructor; intros H; repeat (apply elem_of_cons in H as [H|H]; [discriminate|]);
      by apply elem_of_nil in H.
Defined.

(** As long as [handleGenerate] is called one call at a time: the generate
    button is disabled exactly while a request is in flight or the prompt is
    blank; it reads "Generating..." exactly while a request is in flight; and
    the spinner is never shown without a request in flight. *)
Theorem generate_button_follows_request (key : option jsstring) (a : App) :
  reachable one_at_a_time key a →
  (generate_disabled (now_at a) = true ↔ pending a ≠ [] ∨ blank (prompt (now_at a)))
  ∧ (generate_label (now_at a) = js "Generating..." ↔ pending a ≠ [])
  ∧ (preview (now_at a) = PreviewSpinner → pending a ≠ []).
Proof.
  intros Hreach.
  assert (flag_tracks_request a) as Hflag.
  { revert a Hreach.
    apply (reachable_invariant one_at_a_time key flag_tracks_request); [by left|].
    intros ? e ? ? ? ?. by eapply step_keeps_flag_tracking. }
  assert (isGenerating (now_at a) = true ↔ pending a ≠ []) as Hiff.
  { destruct Hflag as [[-> ->]|(k & -> & ->)]; split; done. }
  split; [|split].
  - unfold generate_disabled. rewrite orb_true_iff, negb_true_iff, truthy_trim_false.
    by rewrite Hiff.
  - rewrite <- Hiff. unfold generate_label.
    destruct (isGenerating (now_at a)); split; done.
  - unfold preview. destruct (selectedImage (now_at a)); [done|].
    destruct (isGenerating (now_at a)) eqn:Hg; [|done]. intros _. by apply Hiff.
Qed.

Lemma generate_button_follows_request_witness :
  (generate_disabled
     (now_at (after one_at_a_time sample_key [EvSetPrompt (js "a red circle"); EvGenerate]))
   = true
   ↔ pending (after one_at_a_time sample_key [EvSetPrompt (js "a red circle"); EvGenerate])
     ≠ []
     ∨ blank (prompt
         (now_at (after one_at_a_time sample_key
                    [EvSetPrompt (js "a red circle"); EvGenerate]))))
  ∧ generate_label
      (now_at (after one_at_a_time sample_key [EvSetPrompt (js "a red circle"); EvGenerate]))
    = js "Generating...".
Proof.
  split; [|by vm_compute].
  apply (generate_button_follows_request sample_key). apply reachable_after.
Defined.

(** ** Sequences of events around one generation *)

(** What is typed or picked while the request is in flight does not reach
    the image: it carries the prompt and the ratio of the click.  The ratio
    picked meanwhile stays on the page, but the text typed meanwhile is wiped
    when the request succeeds. *)
Theorem edits_during_flight (client : GoogleGenAI) (s : State) (text : jsstring)
    (i : nat) (ratio : AspectRatioOption)
    (response : GenerateContentResponse) (random_id : jsstring) (now : Z) :
  trim (prompt s) ≠ [] →
  ASPECT_RATIOS !! i = Some ratio →
  Exists has_inlineData (content_parts response) →
  ∃ s1 request k newImage,
    handleGenerate (Some client) s = Awaiting s1 request k
    ∧ history (handleGenerate_resume k (Fulfilled response) random_id now
                 (setAspectRatio (value ratio) (setPrompt text s1)))
      = newImage :: history s
    ∧ GeneratedImage.prompt newImage = prompt s
    ∧ GeneratedImage.aspectRatio newImage = aspectRatio s
    ∧ prompt (handleGenerate_resume k (Fulfilled response) random_id now
                (setAspectRatio (value ratio) (setPrompt text s1))) = js ""
    ∧ aspectRatio (handleGenerate_resume k (Fulfilled response) random_id now
                     (setAspectRatio (value ratio) (setPrompt text s1))) = value ratio.
Proof.
  intros Hprompt _ Hparts. eexists _, _, _, _.
  split; [by apply handleGenerate_request|].
  by rewrite (resume_success _ _ _ _ _ Hparts).
Qed.

Lemma edits_during_flight_witness :
  ∃ s1 request k newImage,
    handleGenerate (Some sample_client) red_circle = Awaiting s1 request k
    ∧ history (handleGenerate_resume k (Fulfilled one_png) (js "x7k2q") 1700000000000%Z
                 (setAspectRatio (js "16:9") (setPrompt (js "a blue square") s1)))
      = newImage :: history red_circle
    ∧ GeneratedImage.prompt newImage = js "a red circle"
    ∧ GeneratedImage.aspectRatio newImage = js "1:1"
    ∧ prompt (handleGenerate_resume k (Fulfilled one_png) (js "x7k2q") 1700000000000%Z
                (setAspectRatio (js "16:9") (setPrompt (js "a blue square") s1))) = js ""
    ∧ aspectRatio (handleGenerate_resume k (Fulfilled one_png) (js "x7k2q") 1700000000000%Z
                     (setAspectRatio (js "16:9") (setPrompt (js "a blue square") s1)))
      = js "16:9".
Proof.
  apply (edits_during_flight sample_client red_circle (js "a blue square") 1
           {| label := js "16:9"; value := js "16:9"; icon := js "Monitor" |}
           one_png (js "x7k2q") 1700000000000%Z).
  - vm_compute. discriminate.
  - reflexivity.
  - left. by eexists.
Defined.




(** The delete button of the overlay: after it, the preview no longer shows
    an image, no thumbnail carries the deleted image's id, and the counter
    has dropped by at least one. *)
Theorem overlay_delete_clears_preview (key : option jsstring) (a a' : App)
    (sel : GeneratedImage) :
  reachable unrestricted key a →
  selectedImage (now_at a) = Some sel →
  step a (EvDelete (GeneratedImage.id sel)) = Some a' →
  (preview (now_at a') = PreviewSpinner ∨ preview (now_at a') = PreviewPlaceholder)
  ∧ Forall (λ img, GeneratedImage.id img ≠ GeneratedImage.id sel) (history (now_at a'))
  ∧ (image_count (now_at a') < image_count (now_at a))%nat.
Proof.
  intros Hreach Hsel Hstep. simpl in Hstep. simplify_eq.
  pose proof (reachable_selection_in_history _ _ _ Hreach sel Hsel) as Hin.
  unfold now_at in *. cbn [world session with_session].
  unfold preview, image_count.
  destruct (deleteImage_frame (selectedImage (session (world a)))
              (GeneratedImage.id sel) (session (world a)))
    as (_ & -> & _ & _).
  rewrite deleteImage_selection, deleteImage_history, Hsel, decide_True by done.
  split; [|split].
  - destruct (isGenerating _); auto.
  - apply Forall_forall. intros img Himg.
    by apply list_elem_of_filter in Himg as [? _].
  - eapply length_filter_lt; [exact Hin|]. intros H. by apply H.
Qed.

Lemma overlay_delete_clears_preview_witness :
  (preview (now_at (after unrestricted sample_key (two_images ++ [EvDelete (js "x7k2q")])))
     = PreviewSpinner
   ∨ preview (now_at (after unrestricted sample_key (two_images ++ [EvDelete (js "x7k2q")])))
     = PreviewPlaceholder)
  ∧ Forall (λ img, GeneratedImage.id img ≠ js "x7k2q")
      (history (now_at (after unrestricted sample_key
                          (two_images ++ [EvDelete (js "x7k2q")]))))
  ∧ (image_count (now_at (after unrestricted sample_key
                            (two_images ++ [EvDelete (js "x7k2q")])))
     < image_count (now_at (after unrestricted sample_key two_images)))%nat.
Proof.
  apply (overlay_delete_clears_preview sample_key
           (after unrestricted sample_key two_images)
           (after unrestricted sample_key (two_images ++ [EvDelete (js "x7k2q")]))
           red_circle_image).
  - apply reachable_after.
  - by vm_compute.
  - by vm_compute.
Defined.
